(** * Angular DevTools: injector tree serialization and merging

    A shallow embedding of the parts of the DevTools backend
    (client-event-subscribers, component-tree) and of the DevTools tabs
    component that build, serialize and merge injector resolution paths.

    JavaScript values are modelled as follows.
    - Strings are [string]; a property that may be [undefined] is an [option].
    - Live objects of the inspected page (DOM nodes, injector instances,
      module types) are known by their address only, an [ObjRef]; a JS [Map]
      keyed by objects is a [gmap ObjRef _].
    - An evaluation that raises a [TypeError] returns [None]. *)

From stdpp Require Import gmap strings list fin_maps.
From Stdlib Require Import ZArith.

Set Warnings "-register-all".

Open Scope string_scope.
Open Scope list_scope.

(** * The code *)

(** ** Values shared by the page and the DevTools panel *)

(** Address of a live object of the inspected page. *)
Abbreviation ObjRef := positive.

(** An injector record as the backend emits it: [type], the display label
    [owner] ([undefined] when an element hosts no directive), the stable
    [id], and the live [instance] when the record still carries one. *)
Record SerializedInjector : Type := MkSerializedInjector {
  si_type : string;
  si_owner : option string;
  si_id : string;
  si_instance : option ObjRef;
}.

(** ** component-tree: [queryDirectiveForest] *)

(** [ComponentTreeNode]: the element name stands for the payload
    (component, directives, native element); the lookup reads [children]
    only. *)
Inductive ComponentTreeNode : Type :=
  MkComponentTreeNode { element : string; ctn_children : list ComponentTreeNode }.

(** [forest[i]] for a JS number used as an array index.  A number that is
    not a non-negative integer names no element; the negative integers
    stand for all such numbers. *)
Definition arrayAt {A : Type} (arr : list A) (i : Z) : option A :=
  if decide (0 ≤ i)%Z then arr !! Z.to_nat i else None.

(** The body of [for (const i of position)], with the loop variables
    [node] and [forest] as arguments. *)
Fixpoint queryLoop (position : list Z) (forest : list ComponentTreeNode)
    (node : option ComponentTreeNode) : option ComponentTreeNode :=
  match position with
  | [] => node
  | i :: rest =>
      match arrayAt forest i with
      | None => None
      | Some n => queryLoop rest (ctn_children n) (Some n)
      end
  end.

(** [null] is [None]. *)
Definition queryDirectiveForest (position : list Z)
    (forest : list ComponentTreeNode) : option ComponentTreeNode :=
  if bool_decide (length position = 0) then None
  else queryLoop position forest None.

(** ** client-event-subscribers: serializing the forest *)

(** A record of [ng.getInjectorResolutionPath]: [owner] is a live object
    (the debug node of an element, a module type, an injector class) and
    [instance] the live injector, absent on element records. *)
Record RawInjector : Type := MkRawInjector {
  raw_type : string;
  raw_owner : ObjRef;
  raw_instance : option ObjRef;
}.

Record ComponentInstanceType : Type := MkComponentInstanceType {
  comp_name : string;
  comp_isElement : bool;
  comp_instance : ObjRef;
}.

Record DirectiveInstanceType : Type := MkDirectiveInstanceType {
  dir_name : string;
  dir_instance : ObjRef;
}.

Inductive IndexedNode : Type :=
  MkIndexedNode {
    in_position : list Z;
    in_element : string;
    in_component : option ComponentInstanceType;
    in_directives : list DirectiveInstanceType;
    in_nativeElement : option ObjRef;
    in_children : list IndexedNode }.

Record SerializableComponentInstanceType : Type := MkSerializableComponent {
  sc_name : string;
  sc_isElement : bool;
  sc_id : option nat;
}.

Record SerializableDirectiveInstanceType : Type := MkSerializableDirective {
  sd_name : string;
  sd_id : option nat;
}.

Inductive SerializableComponentTreeNode : Type :=
  MkSerializableNode {
    sn_position : list Z;
    sn_element : string;
    sn_component : option SerializableComponentInstanceType;
    sn_directives : list SerializableDirectiveInstanceType;
    sn_children : list SerializableComponentTreeNode;
    sn_resolutionPath : option (list SerializedInjector) }.

(** The module-level state: the two maps, and the number of ids drawn
    from [crypto.randomUUID] so far. *)
Record State : Type := MkState {
  injectorMap : gmap ObjRef string;
  containerInjectorIdToInstance : gmap string (option ObjRef);
  uuidCalls : nat;
}.

(** [injectorMap.clear()]. *)
Definition clearInjectorMap (st : State) : State :=
  {| injectorMap := ∅;
     containerInjectorIdToInstance := containerInjectorIdToInstance st;
     uuidCalls := uuidCalls st |}.

(** [f] over a list, left to right, threading the state; a raise stops it. *)
Definition mapWithState {A B S : Type} (f : A → S → option (S * B))
    : list A → S → option (S * list B) :=
  fix go (xs : list A) (st : S) : option (S * list B) :=
    match xs with
    | [] => Some (st, [])
    | x :: xs' =>
        r ← f x st;
        rs ← go xs' r.1;
        Some (rs.1, r.2 :: rs.2)
    end.

Section Serializer.
(** The primitives of the inspected page, outside this code. *)
Context (getDirectiveId : ObjRef → option nat).
Context (getInjectorResolutionPath : option ObjRef → option (list RawInjector)).
Context (getDirectives : ObjRef → list ObjRef).
Context (getComponent : ObjRef → option ObjRef).
(** [owner instanceof Comment] *)
Context (isComment : ObjRef → bool).
(** [d.constructor.name] *)
Context (constructorName : ObjRef → string).
(** [owner.name] *)
Context (ownerName : ObjRef → option string).
(** The value of the [k]-th call of [crypto.randomUUID()]. *)
Context (randomUUID : nat → string).

(** The first statement of the loop body: look the owner up in
    [injectorMap], draw and record a new id when it is not there. *)
Definition assignId (owner : ObjRef) (st : State) : State * string :=
  match injectorMap st !! owner with
  | Some uuid => (st, uuid)
  | None =>
      let uuid := randomUUID (uuidCalls st) in
      ({| injectorMap := <[owner := uuid]> (injectorMap st);
          containerInjectorIdToInstance := containerInjectorIdToInstance st;
          uuidCalls := S (uuidCalls st) |}, uuid)
  end.

(** The directives whose names make the label of an element: the
    component, when there is one and the owner is no comment node, then
    the directives. *)
Definition ownerDirectives (owner : ObjRef) : list ObjRef :=
  let directives := getDirectives owner in
  if negb (isComment owner)
  then option_list (getComponent owner) ++ directives
  else directives.

(** [restOfDirectives.length === 0 ? firstDirective :
    `${firstDirective}[${restOfDirectives.join(', ')}]`]; destructuring
    an empty array leaves [firstDirective] undefined. *)
Definition ownerLabel (names : list string) : option string :=
  match names with
  | [] => None
  | firstDirective :: restOfDirectives =>
      if bool_decide (length restOfDirectives = 0) then Some firstDirective
      else Some (firstDirective +:+ "[" +:+ String.concat ", " restOfDirectives +:+ "]")
  end.

(** The body of [for (const injector of resolutionPath)]. *)
Definition serializeInjector (inj : RawInjector) (st : State)
    : State * SerializedInjector :=
  let '(st1, uuid) := assignId (raw_owner inj) st in
  if bool_decide (raw_type inj = "Element") then
    (st1, {| si_type := raw_type inj;
             si_owner := ownerLabel (constructorName <$> ownerDirectives (raw_owner inj));
             si_id := uuid;
             si_instance := raw_instance inj |})
  else
    ({| injectorMap := injectorMap st1;
        containerInjectorIdToInstance :=
          <[uuid := raw_instance inj]> (containerInjectorIdToInstance st1);
        uuidCalls := uuidCalls st1 |},
     {| si_type := raw_type inj;
        si_owner := ownerName (raw_owner inj);
        si_id := uuid;
        si_instance := None |}).

Fixpoint serializePath (path : list RawInjector) (st : State)
    : State * list SerializedInjector :=
  match path with
  | [] => (st, [])
  | inj :: rest =>
      let '(st1, s) := serializeInjector inj st in
      let '(st2, ss) := serializePath rest st1 in
      (st2, s :: ss)
  end.

(** The function mapped over [roots].  The children are serialized while
    the object literal is built, before the node's own path.  Iterating
    a [null] resolution path raises. *)
Fixpoint prepareNode (includeResolutionPath : bool) (n : IndexedNode)
    (st : State) : option (State * SerializableComponentTreeNode) :=
  match n with
  | MkIndexedNode position element component directives nativeElement children =>
      let component' :=
        (λ c, {| sc_name := comp_name c;
                 sc_isElement := comp_isElement c;
                 sc_id := getDirectiveId (comp_instance c) |}) <$> component in
      let directives' :=
        (λ d, {| sd_name := dir_name d;
                 sd_id := getDirectiveId (dir_instance d) |}) <$> directives in
      r ← mapWithState (prepareNode includeResolutionPath) children st;
      if includeResolutionPath then
        resolutionPath ← getInjectorResolutionPath nativeElement;
        let '(st2, resolutionPath') := serializePath resolutionPath r.1 in
        Some (st2, MkSerializableNode position element component' directives'
                     r.2 (Some resolutionPath'))
      else
        Some (r.1, MkSerializableNode position element component' directives'
                     r.2 None)
  end.

Definition prepareForestForSerialization (includeResolutionPath : bool)
    (roots : list IndexedNode) (st : State)
    : option (State * list SerializableComponentTreeNode) :=
  mapWithState (prepareNode includeResolutionPath) roots st.

(** [getLatestInjectorGraphCallback], with the indexed forest of the page
    as argument; the second component is the forest it emits. *)
Definition getLatestInjectorGraphCallback (forest : list IndexedNode)
    (st : State) : option (State * list SerializableComponentTreeNode) :=
  prepareForestForSerialization true forest (clearInjectorMap st).

(** The raw records of a node and of those below it, in the order in
    which the loop serializes them. *)
Fixpoint visitedInjectors (n : IndexedNode) : list RawInjector :=
  match n with
  | MkIndexedNode _ _ _ _ nativeElement children =>
      flat_map visitedInjectors children
      ++ default [] (getInjectorResolutionPath nativeElement)
  end.
End Serializer.

(** The records of a serialized node and of those below it, in the same
    order. *)
Fixpoint emittedInjectors (n : SerializableComponentTreeNode) : list SerializedInjector :=
  match n with
  | MkSerializableNode _ _ _ _ children resolutionPath =>
      flat_map emittedInjectors children ++ default [] resolutionPath
  end.

(** ** devtools-tabs component: merging resolution paths into a tree *)

(** The view [{resolutionPath: any[]}] that [interface InjectorNode] takes
    of the component-tree node stored in [injector.node].  The path is the
    node's own one, most specific injector first.  Its entries are the
    very records that the merge loop tags with [node]; [equalNode] reads
    nothing but their [id], which the loop never writes, so they are kept
    here as they were received. *)
Record NodeRef : Type := MkNodeRef { resolutionPath : list SerializedInjector }.

(** [interface InjectorNode].  [node] is [undefined] on a record that the
    merge loop did not tag, which is every record that is not of type
    ['Element']. *)
Record InjectorNode : Type := MkInjectorNode {
  type : string;
  owner : option string;
  node : option NodeRef;
  id : string;
}.

(** A node of [injectorTree]: [{injector, children: []}]. *)
Inductive MergedNode : Type :=
  MkMergedNode { injector : InjectorNode; children : list MergedNode }.

(** A node of [forestWithInjectorPaths]. *)
Inductive DevToolsNode : Type :=
  MkDevToolsNode {
    dt_resolutionPath : option (list SerializedInjector);
    dt_children : list DevToolsNode }.

(** [aInjectors.every(({id}, idx) => bInjectors[idx].id === id)], with
    [idx] the index of the head of [aInjectors].  Reading [.id] of a
    missing [bInjectors[idx]] raises. *)
Fixpoint everyIdMatches (aInjectors bInjectors : list SerializedInjector)
    (idx : nat) : option bool :=
  match aInjectors with
  | [] => Some true
  | a :: rest =>
      b ← bInjectors !! idx;
      if bool_decide (si_id b = si_id a) then everyIdMatches rest bInjectors (S idx)
      else Some false
  end.

(** [equalNode], closed over [this.collapseSiblingElementInjector].
    Reading [a.node.resolutionPath] of a record without [node] raises. *)
Definition equalNode (collapseSiblingElementInjector : bool)
    (a b : InjectorNode) : option bool :=
  if collapseSiblingElementInjector && bool_decide (type a = "Element")
     && bool_decide (type b = "Element") && bool_decide (owner a = owner b)
  then
    na ← node a;
    nb ← node b;
    if bool_decide (length (resolutionPath na) = length (resolutionPath nb))
       && negb (bool_decide (id a = id b))
    then everyIdMatches (tail (resolutionPath na)) (tail (resolutionPath nb)) 0
    else Some (bool_decide (id a = id b))
  else Some (bool_decide (id a = id b)).

(** [pathExists]: the index [i] at which the [while] loop stops, [false]
    being [Some None]; the caller only uses [path[i]]. *)
Fixpoint pathExists (collapse : bool) (path : list MergedNode)
    (value : InjectorNode) : option (option nat) :=
  match path with
  | [] => Some None
  | p :: rest =>
      eq ← equalNode collapse (injector p) value;
      if eq : bool then Some (Some 0)
      else i ← pathExists collapse rest value; Some (option_map S i)
  end.

(** [if (injector['type'] === 'Element') injector.node = node].  Every
    path holds records of its own, built afresh by the backend for each
    node, so tagging the records of one path leaves those already in the
    tree as they are. *)
Definition tagWithNode (nd : NodeRef) (inj : SerializedInjector) : InjectorNode :=
  {| type := si_type inj;
     owner := si_owner inj;
     node := if bool_decide (si_type inj = "Element") then Some nd else None;
     id := si_id inj |}.

(** The inner loop [for (const injector of path)], started at
    [currentLevel]; the result is that level after the in-place updates. *)
Fixpoint insertPath (collapse : bool) (nd : NodeRef)
    (path : list SerializedInjector) (currentLevel : list MergedNode)
    : option (list MergedNode) :=
  match path with
  | [] => Some currentLevel
  | inj :: rest =>
      let injector' := tagWithNode nd inj in
      existingPath ← pathExists collapse currentLevel injector';
      match existingPath with
      | Some i =>
          existing ← currentLevel !! i;
          below ← insertPath collapse nd rest (children existing);
          Some (<[i := MkMergedNode (injector existing) below]> currentLevel)
      | None =>
          below ← insertPath collapse nd rest [];
          Some (currentLevel ++ [MkMergedNode injector' below])
      end
  end.

(** The outer loop [for (const {path, node} of injectorPaths)]. *)
Fixpoint mergePaths (collapse : bool)
    (injectorPaths : list (NodeRef * list SerializedInjector))
    (injectorTree : list MergedNode) : option (list MergedNode) :=
  match injectorPaths with
  | [] => Some injectorTree
  | (nd, path) :: rest =>
      injectorTree' ← insertPath collapse nd path injectorTree;
      mergePaths collapse rest injectorTree'
  end.

(** [grabInjectorPaths]: pre-order, each path reversed to root first. *)
Fixpoint grabInjectorPaths (n : DevToolsNode) : list (NodeRef * list SerializedInjector) :=
  match dt_resolutionPath n with
  | Some rp => [(MkNodeRef rp, reverse rp)]
  | None => []
  end ++ flat_map grabInjectorPaths (dt_children n).

(** [injectorTreeReloaded]; the value is the new [this.injectorTree]. *)
Definition injectorTreeReloaded (collapse : bool)
    (forestWithInjectorPaths : list DevToolsNode) : option (list MergedNode) :=
  root ← forestWithInjectorPaths !! 0;
  mergePaths collapse (grabInjectorPaths root) [].

(** ** JavaScript string operations used below *)

(** [s.indexOf(needle)], [None] for [-1].  The index counts the bytes
    before the match; it is used only to cut the string at the match. *)
Definition indexOf (needle s : string) : option nat := String.index 0 needle s.

(** [s.split(sep)[0]] for a separator that is not empty: the part of [s]
    before the first occurrence of [sep], all of [s] when there is none. *)
Definition beforeFirst (sep s : string) : string :=
  match indexOf sep s with
  | Some i => String.substring 0 i s
  | None => s
  end.

(** A JavaScript string is a sequence of UTF-16 code units, and [length]
    and [slice] count in code units.  The strings of this development hold
    the UTF-8 bytes of a JavaScript string, as the string literals of the
    source do; [utf16] gives the code units back: one for a character of
    one, two or three bytes, and two, a surrogate pair, for a character of
    four bytes.  A surrogate that stands alone is held as its three bytes.
    Bytes that are no UTF-8 hold no JavaScript string; each lead byte of
    such a sequence is read as U+FFFD. *)
Definition isContinuation (b : N) : bool := ((128 <=? b) && (b <? 192))%N.

Fixpoint utf16 (s : string) : list N :=
  match s with
  | EmptyString => []
  | String a0 s1 =>
      let b0 := Ascii.N_of_ascii a0 in
      if (b0 <? 128)%N then b0 :: utf16 s1
      else
        match s1 with
        | EmptyString => [65533%N]
        | String a1 s2 =>
            let b1 := Ascii.N_of_ascii a1 in
            if ((192 <=? b0) && (b0 <? 224))%N && isContinuation b1 then
              N.lor (N.shiftl (N.land b0 31) 6) (N.land b1 63) :: utf16 s2
            else
              match s2 with
              | EmptyString => 65533%N :: utf16 s1
              | String a2 s3 =>
                  let b2 := Ascii.N_of_ascii a2 in
                  if ((224 <=? b0) && (b0 <? 240))%N
                     && isContinuation b1 && isContinuation b2 then
                    N.lor (N.shiftl (N.land b0 15) 12)
                      (N.lor (N.shiftl (N.land b1 63) 6) (N.land b2 63))
                    :: utf16 s3
                  else
                    match s3 with
                    | EmptyString => 65533%N :: utf16 s1
                    | String a3 s4 =>
                        let b3 := Ascii.N_of_ascii a3 in
                        if ((240 <=? b0) && (b0 <? 248))%N && isContinuation b1
                           && isContinuation b2 && isContinuation b3 then
                          let codePoint :=
                            N.lor (N.shiftl (N.land b0 7) 18)
                              (N.lor (N.shiftl (N.land b1 63) 12)
                                 (N.lor (N.shiftl (N.land b2 63) 6) (N.land b3 63))) in
                          let offset := (codePoint - 65536)%N in
                          (55296 + N.shiftr offset 10)%N
                          :: (56320 + N.land offset 1023)%N :: utf16 s4
                        else 65533%N :: utf16 s1
                    end
              end
        end
  end.

(** ** injector-tree component and graph: showing the merged tree *)

(** The first statement of [_render]:
    [if (injectorTree[0]?.children?.[0].injector.owner === 'R3Injector')
       injectorTree[0].children[0].injector.owner = 'Platform'].
    The optional chain stops at a missing first root; [children] is always
    an array, and reading [.injector] of its missing first entry raises. *)
Definition renderRename (injectorTree : list MergedNode) : option (list MergedNode) :=
  match injectorTree with
  | [] => Some []
  | root :: others =>
      match children root with
      | [] => None
      | first :: siblings =>
          if bool_decide (owner (injector first) = Some "R3Injector") then
            let renamed :=
              {| type := type (injector first);
                 owner := Some "Platform";
                 node := node (injector first);
                 id := id (injector first) |} in
            Some (MkMergedNode (injector root)
                    (MkMergedNode renamed (children first) :: siblings) :: others)
          else Some injectorTree
      end
  end.

(** [label.length > 30 ? label.slice(0, 27) + '...' : label], on the code
    units of the label and of the three dots: [length] counts code units
    and [slice] cuts between code units, also inside a surrogate pair. *)
Definition truncateLabel (label : string) : list N :=
  let units := utf16 label in
  if bool_decide (30 < length units)%nat
  then take 27 units ++ utf16 "..."
  else units.

(** The [text] callback of [InjectorTreeGraph.render] on a node of the
    merged tree, whose data is [{injector, children}]: the owner is
    [d.data.injector.owner]; calling [split] on, or reading [length] of,
    an undefined owner raises.  The text is given by its code units. *)
Definition nodeText (n : MergedNode) : option (list N) :=
  if bool_decide (type (injector n) = "Element") then
    owner ← owner (injector n);
    Some (truncateLabel (beforeFirst "[" owner))
  else
    label ← owner (injector n);
    Some (truncateLabel label).

(** ** component-tree: injector parameters of an element *)

(** What [serializeInjectorParameter] reads of a record of
    [ng.getElementInjectorMetadata]: of the token its [ngMetadataName],
    [constructor.name], [_desc] as the template literal prints it, and
    [name]; of the context [factory.name]; of the value [None] when it is
    [null] or [undefined], and otherwise its [constructor.name], [None]
    when it has no constructor; and the flags, which are copied. *)
Record InjectorParameter : Type := MkInjectorParameter {
  ip_ngMetadataName : option string;
  ip_constructorName : string;
  ip_desc : string;
  ip_name : option string;
  ip_factoryName : option string;
  ip_value : option (option string);
  ip_flags : nat;
}.

Record SerializedParameter : Type := MkSerializedParameter {
  sp_token : option string;
  sp_context : option string;
  sp_value : option string;
  sp_flags : nat;
  sp_paramIndex : nat;
}.

(** [serializeInjectorParameter]: an [InjectionToken] is printed as
    [Ctor(desc)] and its value is read with [?.]; for another token the
    value is read with [.], which raises on a missing value or
    constructor. *)
Definition serializeInjectorParameter (injectorParameter : InjectorParameter)
    (index : nat) : option SerializedParameter :=
  if bool_decide (ip_ngMetadataName injectorParameter = Some "InjectionToken") then
    Some {| sp_token := Some (ip_constructorName injectorParameter +:+ "("
                              +:+ ip_desc injectorParameter +:+ ")");
            sp_context := ip_factoryName injectorParameter;
            sp_value := mjoin (ip_value injectorParameter);
            sp_flags := ip_flags injectorParameter;
            sp_paramIndex := index |}
  else
    value ← ip_value injectorParameter;
    name ← value;
    Some {| sp_token := ip_name injectorParameter;
            sp_context := ip_factoryName injectorParameter;
            sp_value := Some name;
            sp_flags := ip_flags injectorParameter;
            sp_paramIndex := index |}.

(** [xs.map((x, index) => f(x, index))], [index] being the index of the
    head of [xs]; a raise stops it. *)
Fixpoint mapIndexed {A B : Type} (f : A → nat → option B) (xs : list A)
    (index : nat) : option (list B) :=
  match xs with
  | [] => Some []
  | x :: xs' =>
      y ← f x index;
      ys ← mapIndexed f xs' (S index);
      Some (y :: ys)
  end.

(** [getInjectorMetadataFromElement], on the value of
    [ng?.getElementInjectorMetadata?.(element)], [None] when it is falsy. *)
Definition getInjectorMetadataFromElement
    (injectorMetadata : option (list InjectorParameter))
    : option (list SerializedParameter) :=
  match injectorMetadata with
  | Some parameters => mapIndexed serializeInjectorParameter parameters 0
  | None => Some []
  end.

(** ** client-event-subscribers: [stringify] *)

(** What [token.toString()] returns. *)
Inductive ToStringResult : Type :=
  | ResString (res : string)
  | ResNull
  | ResUndefined.

(** A token as [stringify] tells them apart: a string, an array, [null],
    [undefined], or any other value, of which it reads [overriddenName],
    [name] ([None] when falsy) and [toString] ([None] when falsy). *)
Inductive Token : Type :=
  | TokString (s : string)
  | TokArray (items : list Token)
  | TokNull
  | TokUndefined
  | TokOther (overriddenName name : option string) (toString : option ToStringResult).

Definition newline : string := String (Ascii.ascii_of_nat 10) "".

Fixpoint stringify (token : Token) : string :=
  match token with
  | TokString s => s
  | TokArray items => "[" +:+ String.concat ", " (map stringify items) +:+ "]"
  | TokNull => "null"
  | TokUndefined => "undefined"
  | TokOther (Some overriddenName) _ _ => overriddenName
  | TokOther None (Some name) _ => name
  | TokOther None None None => "object"
  | TokOther None None (Some ResNull) => "null"
  | TokOther None None (Some ResUndefined) => "undefined"
  | TokOther None None (Some (ResString res)) =>
      match indexOf newline res with
      | None => res
      | Some newLineIndex => String.substring 0 newLineIndex res
      end
  end.

(** ** client-event-subscribers: [serializeResolutionPath] *)

(** A record of [ng.traceTokenInjectorPath]: of the owner, its [name]
    ([None] when falsy) and the [name] of its [ngModule] (the outer [None]
    when there is no [ngModule]). *)
Inductive TraceInjector : Type :=
  MkTraceInjector {
    tr_type : string;
    tr_ownerName : option string;
    tr_ownerNgModule : option (option string);
    tr_importPath : option (list TraceInjector) }.

(** The record after the call: the owner is a label, and the import path
    is serialized, or left as it was. *)
Inductive SerializedTrace : Type :=
  | MkSerializedTrace (type : string) (owner : option string) (importPath : ImportPath)
with ImportPath : Type :=
  | ImportPathMissing
  | ImportPathSerialized (path : list SerializedTrace)
  | ImportPathRaw (path : list TraceInjector).

Definition st_type (s : SerializedTrace) : string :=
  match s with MkSerializedTrace type _ _ => type end.
Definition st_owner (s : SerializedTrace) : option string :=
  match s with MkSerializedTrace _ owner _ => owner end.
Definition st_importPath (s : SerializedTrace) : ImportPath :=
  match s with MkSerializedTrace _ _ importPath => importPath end.

(** The callback of [forEach]: [owner.name || owner.ngModule.name], which
    raises when the name is falsy and there is no [ngModule]; then the
    import path of a ['Module'] record, and of an ['ImportedModule'] record
    that has one, is serialized in turn, a missing one counting as empty
    ([injectors ?? []]). *)
Fixpoint serializeTraceInjector (injector : TraceInjector) : option SerializedTrace :=
  match injector with
  | MkTraceInjector type ownerName ownerNgModule importPath =>
      owner ← match ownerName with
              | Some name => Some (Some name)
              | None => ownerNgModule
              end;
      let serializeAll :=
        fix serializeAll (injectors : list TraceInjector) : option (list SerializedTrace) :=
          match injectors with
          | [] => Some []
          | i :: rest =>
              i' ← serializeTraceInjector i;
              rest' ← serializeAll rest;
              Some (i' :: rest')
          end in
      if bool_decide (type = "Module")
         || bool_decide (type = "ImportedModule") && bool_decide (is_Some importPath)
      then
        match importPath with
        | Some path =>
            path' ← serializeAll path;
            Some (MkSerializedTrace type owner (ImportPathSerialized path'))
        | None => Some (MkSerializedTrace type owner ImportPathMissing)
        end
      else
        Some (MkSerializedTrace type owner
                match importPath with
                | Some path => ImportPathRaw path
                | None => ImportPathMissing
                end)
  end.

(** [serializeResolutionPath], [None] as argument for [null] or
    [undefined]. *)
Definition serializeResolutionPath (injectors : option (list TraceInjector))
    : option (list SerializedTrace) :=
  mapM serializeTraceInjector (default [] injectors).

(** ** component-tree: the roots of the page *)

(** An element of the page, as [isTopLevel] walks it: whether it has the
    attribute [ng-version], and its [parentElement]. *)
Inductive DomElement : Type :=
  MkDomElement { hasNgVersion : bool; parentElement : option DomElement }.

(** [isTopLevel], the loop variable [parent] being the argument:
    [while (parent?.parentElement) { parent = parent.parentElement;
       if (parent.hasAttribute('ng-version')) return false; } return true]. *)
Fixpoint isTopLevel (parent : DomElement) : bool :=
  match parentElement parent with
  | None => true
  | Some parent' => if hasNgVersion parent' then false else isTopLevel parent'
  end.

(** [getRoots], on the elements that
    [document.documentElement.querySelectorAll('[ng-version]')] returns. *)
Definition getRoots (roots : list DomElement) : list DomElement :=
  filter (λ element, isTopLevel element = true) roots.

(** ** chrome window extensions: [traverseDirective] *)

Section Traverse.
(** JavaScript values with [undefined] among them, whether a value is
    truthy, and [dir[key]], which is [None] when the read raises. *)
Context {Value : Type} (undefined : Value) (truthy : Value → bool).
Context (readProperty : Value → string → option Value).

(** [traverseDirective]; [return;] returns [undefined]. *)
Fixpoint traverseDirective (dir : Value) (objectPath : list string) : option Value :=
  match objectPath with
  | [] => Some dir
  | key :: rest =>
      value ← readProperty dir key;
      if negb (truthy value) then Some undefined
      else dir' ← readProperty dir key; traverseDirective dir' rest
  end.
End Traverse.

(** ** devtools-tabs component: tabs, inspector and settings *)

Inductive Tab : Type := Components | Profiler | RouterTree | InjectorTree.

Definition _defaultTabs : list Tab := [Components; Profiler; InjectorTree].

(** The fields of [DevToolsTabsComponent] that its methods write (a route
    stands by its name, the component reads only the number of routes),
    the events it emitted on the message bus, oldest first, and the number
    of calls of [tabUpdate.notify()]. *)
Record TabsState : Type := MkTabsState {
  activeTab : Tab;
  inspectorRunning : bool;
  routes : list string;
  tabs : list Tab;
  injectorTree : list MergedNode;
  collapseSiblingElementInjector : bool;
  emitted : list string;
  notified : nat;
}.

Definition initialTabsState : TabsState :=
  {| activeTab := Components; inspectorRunning := false; routes := [];
     tabs := _defaultTabs; injectorTree := [];
     collapseSiblingElementInjector := false; emitted := []; notified := 0 |}.

(** [this._messageBus.emit(event)]. *)
Definition emit (event : string) (st : TabsState) : TabsState :=
  {| activeTab := activeTab st; inspectorRunning := inspectorRunning st;
     routes := routes st; tabs := tabs st; injectorTree := injectorTree st;
     collapseSiblingElementInjector := collapseSiblingElementInjector st;
     emitted := emitted st ++ [event]; notified := notified st |}.

(** The handler of ['updateRouterTree']: [this.routes = routes || []], and
    the tab is added when there are routes. *)
Definition onUpdateRouterTree (routes' : option (list string)) (st : TabsState)
    : TabsState :=
  let routes' := default [] routes' in
  {| activeTab := activeTab st; inspectorRunning := inspectorRunning st;
     routes := routes';
     tabs := if bool_decide (0 < length routes')%nat
             then _defaultTabs ++ [RouterTree] else tabs st;
     injectorTree := injectorTree st;
     collapseSiblingElementInjector := collapseSiblingElementInjector st;
     emitted := emitted st; notified := notified st |}.

(** The handler of ['latestInjectorGraphView']; when [injectorTreeReloaded]
    raises, [this.injectorTree] is not written. *)
Definition onLatestInjectorGraphView (forestWithInjectorPaths : list DevToolsNode)
    (st : TabsState) : TabsState :=
  match injectorTreeReloaded (collapseSiblingElementInjector st) forestWithInjectorPaths with
  | Some tree =>
      {| activeTab := activeTab st; inspectorRunning := inspectorRunning st;
         routes := routes st; tabs := tabs st; injectorTree := tree;
         collapseSiblingElementInjector := collapseSiblingElementInjector st;
         emitted := emitted st; notified := notified st |}
  | None => st
  end.

(** [changeTab]; copying [this.injectorTree] leaves its content. *)
Definition changeTab (tab : Tab) (st : TabsState) : TabsState :=
  let st1 :=
    {| activeTab := tab; inspectorRunning := inspectorRunning st;
       routes := routes st; tabs := tabs st; injectorTree := injectorTree st;
       collapseSiblingElementInjector := collapseSiblingElementInjector st;
       emitted := emitted st; notified := S (notified st) |} in
  match tab with
  | RouterTree => emit "getRoutes" st1
  | _ => st1
  end.

Definition toggleInspectorState (st : TabsState) : TabsState :=
  {| activeTab := activeTab st; inspectorRunning := negb (inspectorRunning st);
     routes := routes st; tabs := tabs st; injectorTree := injectorTree st;
     collapseSiblingElementInjector := collapseSiblingElementInjector st;
     emitted := emitted st; notified := notified st |}.

Definition emitInspectorEvent (st : TabsState) : TabsState :=
  if inspectorRunning st then changeTab Components (emit "inspectorStart" st)
  else emit "removeHighlightOverlay" (emit "inspectorEnd" st).

Definition toggleInspector (st : TabsState) : TabsState :=
  emitInspectorEvent (toggleInspectorState st).

Definition toggleTimingAPI (checked : bool) (st : TabsState) : TabsState :=
  if checked then emit "enableTimingAPI" st else emit "disableTimingAPI" st.

Definition reloadInjectorTree (st : TabsState) : TabsState :=
  emit "getLatestInjectorGraphView" st.

Definition toggleSiblingElementCollapse (checked : bool) (st : TabsState) : TabsState :=
  reloadInjectorTree
    {| activeTab := activeTab st; inspectorRunning := inspectorRunning st;
       routes := routes st; tabs := tabs st; injectorTree := injectorTree st;
       collapseSiblingElementInjector := checked;
       emitted := emitted st; notified := notified st |}.

(** What happens to the component: a message arrives or one of its
    methods is called.  All the methods are public, also
    [emitInspectorEvent] and [toggleInspectorState], which
    [toggleInspector] calls in turn.  The handler of
    ['latestComponentExplorerView'], [ngAfterViewInit] and [ngOnDestroy]
    write none of the fields of [TabsState] and emit nothing. *)
Inductive TabsAction : Type :=
  | UpdateRouterTree (routes : option (list string))
  | LatestInjectorGraphView (forestWithInjectorPaths : list DevToolsNode)
  | ChangeTab (tab : Tab)
  | ToggleInspector
  | EmitInspectorEvent
  | ToggleInspectorState
  | ToggleTimingAPI (checked : bool)
  | ToggleSiblingElementCollapse (checked : bool)
  | ReloadInjectorTree.

Definition tabsStep (st : TabsState) (action : TabsAction) : TabsState :=
  match action with
  | UpdateRouterTree routes => onUpdateRouterTree routes st
  | LatestInjectorGraphView forest => onLatestInjectorGraphView forest st
  | ChangeTab tab => changeTab tab st
  | ToggleInspector => toggleInspector st
  | EmitInspectorEvent => emitInspectorEvent st
  | ToggleInspectorState => toggleInspectorState st
  | ToggleTimingAPI checked => toggleTimingAPI checked st
  | ToggleSiblingElementCollapse checked => toggleSiblingElementCollapse checked st
  | ReloadInjectorTree => reloadInjectorTree st
  end.

Definition tabsRun (actions : list TabsAction) (st : TabsState) : TabsState :=
  foldl tabsStep st actions.

(** * Notions used in the statements *)

(** Some index along the position names no node at its level. *)
Inductive DeadIndex : list Z → list ComponentTreeNode → Prop :=
  | dead_here i rest forest :
      arrayAt forest i = None → DeadIndex (i :: rest) forest
  | dead_below i rest forest n :
      arrayAt forest i = Some n → DeadIndex rest (ctn_children n) →
      DeadIndex (i :: rest) forest.

(** The position leads, index by index, to the node. *)
Inductive Leads : list Z → list ComponentTreeNode → ComponentTreeNode → Prop :=
  | leads_last i forest n :
      arrayAt forest i = Some n → Leads [i] forest n
  | leads_step i rest forest m n :
      arrayAt forest i = Some m → Leads rest (ctn_children m) n →
      Leads (i :: rest) forest n.

(** ** Auxiliary notions for the statements about [equalNode] *)

(** An ['Element'] record carries the node it was tagged with, as
    [interface InjectorNode] declares and as the merge loop ensures. *)
Definition Tagged (a : InjectorNode) : Prop :=
  type a = "Element" → is_Some (node a).

Definition nodePath (a : InjectorNode) : list SerializedInjector :=
  match node a with Some n => resolutionPath n | None => [] end.

(** The equivalence rule in the words of the specification: equal ids, or
    collapse mode on two element records with the same label, with
    resolution paths of the same length whose ids agree beyond the first
    entry. *)
Definition equalNodeSpec (collapse : bool) (a b : InjectorNode) : bool :=
  bool_decide (id a = id b)
  || (collapse && bool_decide (type a = "Element") && bool_decide (type b = "Element")
      && bool_decide (owner a = owner b)
      && bool_decide (length (nodePath a) = length (nodePath b))
      && bool_decide (si_id <$> tail (nodePath a) = si_id <$> tail (nodePath b))).

(** ** The merge as a function on trees

    [insertPure] is the inner loop with the equivalence test as a total
    boolean parameter and with the path already tagged; the node found by
    [pathExists] is rebuilt in place instead of being addressed by index.
    It is shown below to compute what [insertPath] computes. *)
Section PureMerge.
Context (eqv : InjectorNode → InjectorNode → bool).

Fixpoint insertPure (path : list InjectorNode) (level : list MergedNode)
    : list MergedNode :=
  match path with
  | [] => level
  | x :: rest =>
      (fix scan (lvl : list MergedNode) : list MergedNode :=
         match lvl with
         | [] => [MkMergedNode x (insertPure rest [])]
         | t :: lvl' =>
             if eqv (injector t) x
             then MkMergedNode (injector t) (insertPure rest (children t)) :: lvl'
             else t :: scan lvl'
         end) level
  end.

Definition mergePure (paths : list (list InjectorNode)) (tree : list MergedNode)
    : list MergedNode :=
  foldl (λ tree path, insertPure path tree) tree paths.
End PureMerge.

(** The paths as the inner loop sees them, every element record tagged
    with the node the path belongs to. *)
Definition tagPaths (injectorPaths : list (NodeRef * list SerializedInjector))
    : list (list InjectorNode) :=
  (λ np : NodeRef * list SerializedInjector, tagWithNode np.1 <$> np.2)
    <$> injectorPaths.

(** A property [Q] of the records of one level holds at every level below
    a node. *)
Inductive Hereditary (Q : list InjectorNode → Prop) : MergedNode → Prop :=
  | Hereditary_node inj ch :
      Q (injector <$> ch) → Forall (Hereditary Q) ch →
      Hereditary Q (MkMergedNode inj ch).

(** ... and at the top level too. *)
Definition HereditaryForest (Q : list InjectorNode → Prop)
    (forest : list MergedNode) : Prop :=
  Q (injector <$> forest) ∧ Forall (Hereditary Q) forest.

(** No two records of a level are equal under [equalNode]. *)
Definition Distinct (collapse : bool) (level : list InjectorNode) : Prop :=
  ∀ i j a b, i ≠ j → level !! i = Some a → level !! j = Some b →
    equalNode collapse a b = Some false.

(** The record [x] of the tree carries the serialized record [r]: it has
    the type, the owner and the id of [r], and its node is [nd] when [r]
    is an element record and undefined otherwise. *)
Definition Carries (nd : NodeRef) (r : SerializedInjector) (x : InjectorNode) : Prop :=
  type x = si_type r ∧ owner x = si_owner r ∧ id x = si_id r ∧
  node x = (if bool_decide (si_type r = "Element") then Some nd else None).

(** A linear chain: one child per level, records in the order of the path. *)
Fixpoint chain (path : list InjectorNode) : list MergedNode :=
  match path with
  | [] => []
  | x :: rest => [MkMergedNode x (chain rest)]
  end.

(** ** Shape of a merged tree *)

(** The same tree up to the order of siblings, nodes compared by the id of
    their record. *)
Inductive sameShape : MergedNode → MergedNode → Prop :=
  | sameShape_node a b cs ds ds' :
      id a = id b → ds ≡ₚ ds' → Forall2 sameShape cs ds' →
      sameShape (MkMergedNode a cs) (MkMergedNode b ds).

Definition sameShapeForest (f g : list MergedNode) : Prop :=
  ∃ g', g ≡ₚ g' ∧ Forall2 sameShape f g'.

(** Number of nodes. *)
Fixpoint treeSize (t : MergedNode) : nat :=
  S (list_sum (treeSize <$> children t)).

Definition forestSize (f : list MergedNode) : nat := list_sum (treeSize <$> f).

(** The forest has a branch, from the top level down, whose ids are [ks]. *)
Fixpoint hasBranch (ks : list string) (forest : list MergedNode) : Prop :=
  match ks with
  | [] => True
  | k :: ks' =>
      ∃ t, t ∈ forest ∧ id (injector t) = k ∧ hasBranch ks' (children t)
  end.

(** The ids of the records of a level are pairwise different. *)
Definition DistinctIds (level : list InjectorNode) : Prop := NoDup (id <$> level).

(** ** Notions for the statements about the identity map *)

(** Since the draw numbered [c0], every id in [injectorMap] was drawn from
    [randomUUID], and no two owners share an id. *)
Definition DrawnIds (randomUUID : nat → string) (c0 : nat) (st : State) : Prop :=
  (c0 ≤ uuidCalls st)%nat ∧
  (∀ o u, injectorMap st !! o = Some u →
     ∃ k, (c0 ≤ k < uuidCalls st)%nat ∧ u = randomUUID k) ∧
  (∀ o1 o2 u, injectorMap st !! o1 = Some u → injectorMap st !! o2 = Some u → o1 = o2).

Definition Extends (st st' : State) : Prop :=
  injectorMap st ⊆ injectorMap st' ∧ (uuidCalls st ≤ uuidCalls st')%nat.

(** The id of each serialized record is the one the map holds for the
    owner of the raw record it was made from. *)
Definition Recorded (st : State) (raws : list RawInjector)
    (sers : list SerializedInjector) : Prop :=
  Forall2 (λ r s, injectorMap st !! raw_owner r = Some (si_id s)) raws sers.

(** What serializing the records [raws] into [sers] does to the state. *)
Definition PassSpec (randomUUID : nat → string) (c0 : nat) (st : State)
    (raws : list RawInjector) (sers : list SerializedInjector) (st' : State) : Prop :=
  DrawnIds randomUUID c0 st →
  DrawnIds randomUUID c0 st' ∧ Extends st st' ∧ Recorded st' raws sers ∧
  (∀ o, is_Some (injectorMap st' !! o) ↔
        is_Some (injectorMap st !! o) ∨ o ∈ raw_owner <$> raws).

(** ** Paths already in the tree *)

(** The path is in the forest the way the merge loop walks it: at every
    level the scan of [pathExists] stops at a node [n], having found the
    nodes before it different, and the rest of the path is in the children
    of [n] in the same way. *)
Fixpoint Routed (eqv : InjectorNode → InjectorNode → bool)
    (path : list InjectorNode) (forest : list MergedNode) : Prop :=
  match path with
  | [] => True
  | x :: rest =>
      ∃ pre n post,
        forest = pre ++ n :: post ∧
        (∀ t, t ∈ pre → eqv (injector t) x = false) ∧
        eqv (injector n) x = true ∧
        Routed eqv rest (children n)
  end.

(** The same with the test of the code: the scan of [pathExists] finds
    [equalNode] false on the nodes before [n] and true on [n]. *)
Fixpoint Found (collapse : bool) (path : list InjectorNode)
    (forest : list MergedNode) : Prop :=
  match path with
  | [] => True
  | x :: rest =>
      ∃ pre n post,
        forest = pre ++ n :: post ∧
        (∀ t, t ∈ pre → equalNode collapse (injector t) x = Some false) ∧
        equalNode collapse (injector n) x = Some true ∧
        Found collapse rest (children n)
  end.

(** ** Notions for the statements about the serialized forest *)

(** A node and all the nodes below it, parents first. *)
Fixpoint nodesOf (n : IndexedNode) : list IndexedNode :=
  match n with
  | MkIndexedNode _ _ _ _ _ children => n :: flat_map nodesOf children
  end.

(** The serialized node mirrors the indexed node: same position, element,
    component and directive names, the children mirror the children in
    order, and the resolution path, present exactly when asked for, has a
    record for each raw record, of the same type. *)
Inductive Mirrors (getInjectorResolutionPath : option ObjRef → option (list RawInjector))
    (withPath : bool) : IndexedNode → SerializableComponentTreeNode → Prop :=
  | Mirrors_node position element component directives nativeElement children
        component' directives' children' path' :
      sc_name <$> component' = comp_name <$> component →
      sd_name <$> directives' = dir_name <$> directives →
      Forall2 (Mirrors getInjectorResolutionPath withPath) children children' →
      match withPath, path' with
      | false, None => True
      | true, Some p =>
          ∃ raw, getInjectorResolutionPath nativeElement = Some raw ∧
                 Forall2 (λ r s, si_type s = raw_type r) raw p
      | _, _ => False
      end →
      Mirrors getInjectorResolutionPath withPath
        (MkIndexedNode position element component directives nativeElement children)
        (MkSerializableNode position element component' directives' children' path').

(** The instance table after the records [raws], serialized as [sers],
    were visited in turn: every record that is no element record writes
    its instance under its id. *)
Fixpoint instancesAfter (table : gmap string (option ObjRef))
    (raws : list RawInjector) (sers : list SerializedInjector)
    : gmap string (option ObjRef) :=
  match raws, sers with
  | r :: raws', s :: sers' =>
      instancesAfter
        (if bool_decide (raw_type r = "Element") then table
         else <[si_id s := raw_instance r]> table)
        raws' sers'
  | _, _ => table
  end.

(** ** Notions for the statement about [serializeResolutionPath] *)

(** The records that the call reaches from a record: the record itself
    and, when it is a ['Module'] or an ['ImportedModule'] record, those it
    reaches from the records of its import path. *)
Fixpoint reachedFrom (injector : TraceInjector) : list TraceInjector :=
  match injector with
  | MkTraceInjector type _ _ importPath =>
      injector ::
      if bool_decide (type = "Module") || bool_decide (type = "ImportedModule")
      then match importPath with
           | Some path => flat_map reachedFrom path
           | None => []
           end
      else []
  end.

(** ** Notions for the statements about the roots and the tabs *)

(** The proper ancestors of an element, nearest first. *)
Fixpoint ancestors (element : DomElement) : list DomElement :=
  match parentElement element with
  | None => []
  | Some parent => parent :: ancestors parent
  end.

(** The action is a router tree update that brings at least one route. *)
Definition bringsRoutes (action : TabsAction) : bool :=
  match action with
  | UpdateRouterTree (Some (_ :: _)) => true
  | _ => false
  end.

(** The first [k] events of the sequence [inspectorStart], [inspectorEnd],
    [inspectorStart], ... *)
Fixpoint startEndLog (k : nat) : list string :=
  match k with
  | 0 => []
  | S k' => startEndLog k' ++ [if Nat.even k' then "inspectorStart" else "inspectorEnd"]
  end.

Definition isInspectorEvent (event : string) : Prop :=
  event = "inspectorStart" ∨ event = "inspectorEnd".

(** The action is a call of one of the two methods that [toggleInspector]
    is made of. *)
Definition isInspectorStep (action : TabsAction) : bool :=
  match action with
  | EmitInspectorEvent | ToggleInspectorState => true
  | _ => false
  end.

(** The number of calls of [toggleInspector] among the actions. *)
Definition isToggle (action : TabsAction) : bool :=
  match action with ToggleInspector => true | _ => false end.

Definition toggles (actions : list TabsAction) : nat :=
  length (filter (λ action, isToggle action = true) actions).

(** The record of a trace has neither an owner name nor a module. *)
Definition NoOwnerName (r : TraceInjector) : Prop :=
  tr_ownerName r = None ∧ tr_ownerNgModule r = None.

(** * Example data *)

(** Two sibling elements that host the same component under the same
    module. *)
Definition c1_a : InjectorNode :=
  MkInjectorNode "Element" (Some "TodoComponent")
    (Some (MkNodeRef [MkSerializedInjector "Element" (Some "TodoComponent") "a" None;
                      MkSerializedInjector "Module" (Some "AppModule") "m" None])) "a".

Definition c1_b : InjectorNode :=
  MkInjectorNode "Element" (Some "TodoComponent")
    (Some (MkNodeRef [MkSerializedInjector "Element" (Some "TodoComponent") "b" None;
                      MkSerializedInjector "Module" (Some "AppModule") "m" None])) "b".

(** Three elements under one module: [e] and [f] are siblings hosting the
    same directive, [c] is a child of [e].  Each path is paired with the
    node it belongs to and runs root first, as [grabInjectorPaths] builds
    it. *)
Definition c2_m : SerializedInjector := MkSerializedInjector "Module" (Some "AppModule") "m" None.
Definition c2_e : SerializedInjector := MkSerializedInjector "Element" (Some "X") "e" None.
Definition c2_f : SerializedInjector := MkSerializedInjector "Element" (Some "X") "f" None.
Definition c2_c : SerializedInjector := MkSerializedInjector "Element" (Some "C") "c" None.

Definition c2_pathE : NodeRef * list SerializedInjector :=
  (MkNodeRef [c2_e; c2_m], [c2_m; c2_e]).
Definition c2_pathF : NodeRef * list SerializedInjector :=
  (MkNodeRef [c2_f; c2_m], [c2_m; c2_f]).
Definition c2_pathC : NodeRef * list SerializedInjector :=
  (MkNodeRef [c2_c; c2_e; c2_m], [c2_m; c2_e; c2_c]).

Definition c2_order1 : list (NodeRef * list SerializedInjector) :=
  [c2_pathE; c2_pathF; c2_pathC].
Definition c2_order2 : list (NodeRef * list SerializedInjector) :=
  [c2_pathC; c2_pathF; c2_pathE].

(** The trees the two orders give with collapse mode on. *)
Definition c2_tree1 : list MergedNode :=
  [MkMergedNode (tagWithNode c2_pathE.1 c2_m)
     [MkMergedNode (tagWithNode c2_pathE.1 c2_e)
        [MkMergedNode (tagWithNode c2_pathC.1 c2_c) []]]].

Definition c2_tree2 : list MergedNode :=
  [MkMergedNode (tagWithNode c2_pathC.1 c2_m)
     [MkMergedNode (tagWithNode c2_pathC.1 c2_e)
        [MkMergedNode (tagWithNode c2_pathC.1 c2_c) []];
      MkMergedNode (tagWithNode c2_pathF.1 c2_f) []]].

(** A page for the examples: object 10 is an element hosting a component
    (object 1) and two directives (objects 2 and 3), object 11 is a comment
    node hosting nothing, object 20 is the module type [AppModule]
    and object 30 its injector. *)
Definition ex_getDirectives (o : ObjRef) : list ObjRef :=
  if bool_decide (o = 10%positive) then [2%positive; 3%positive] else [].
Definition ex_getComponent (o : ObjRef) : option ObjRef :=
  if bool_decide (o = 10%positive) then Some 1%positive else None.
Definition ex_isComment (o : ObjRef) : bool := bool_decide (o = 11%positive).
Definition ex_constructorName (o : ObjRef) : string :=
  if bool_decide (o = 1%positive) then "TodoComponent"
  else if bool_decide (o = 2%positive) then "TooltipDirective"
  else "SampleDirective".
Definition ex_ownerName (o : ObjRef) : option string :=
  if bool_decide (o = 20%positive) then Some "AppModule" else None.
(** Ids drawn in turn: ["u"], ["uu"], ["uuu"], ... *)
Fixpoint ex_randomUUID (k : nat) : string :=
  match k with
  | 0 => "u"
  | S k' => "u" +:+ ex_randomUUID k'
  end.
Definition ex_getInjectorResolutionPath (e : option ObjRef) : option (list RawInjector) :=
  match e with
  | Some o => Some [MkRawInjector "Element" o None;
                    MkRawInjector "Module" 20%positive (Some 30%positive)]
  | None => None
  end.
Definition ex_getDirectiveId (o : ObjRef) : option nat := Some (Pos.to_nat o).

Definition ex_state : State := MkState ∅ ∅ 0.

Definition ex_element : RawInjector := MkRawInjector "Element" 10%positive None.
Definition ex_comment : RawInjector := MkRawInjector "Element" 11%positive None.

Definition ex_forest : list IndexedNode :=
  [MkIndexedNode [0%Z] "app-root" None [] (Some 10%positive)
     [MkIndexedNode [0%Z; 0%Z] "#comment" None [] (Some 11%positive) []]].

(** A small component forest: a root with two children, the second of
    which has a child of its own. *)
Definition ex_componentForest : list ComponentTreeNode :=
  [MkComponentTreeNode "app-root"
     [MkComponentTreeNode "app-todos" [];
      MkComponentTreeNode "app-home" [MkComponentTreeNode "app-todo" []]]].

(** Two injector parameters of an element: a class token with its value,
    and an injection token whose value is missing. *)
Definition ex_parameters : list InjectorParameter :=
  [MkInjectorParameter None "Function" "" (Some "Router") (Some "AppComponent_Factory")
     (Some (Some "Router")) 0;
   MkInjectorParameter (Some "InjectionToken") "InjectionToken" "foo" None
     (Some "AppComponent_Factory") None 8].

(** Values for the examples of [traverseDirective]: [undefined], and
    objects with their properties. *)
Inductive ExValue : Type :=
  | ExUndefined
  | ExObject (properties : list (string * ExValue)).

Definition ex_truthy (v : ExValue) : bool :=
  match v with ExUndefined => false | ExObject _ => true end.

Fixpoint ex_lookup (properties : list (string * ExValue)) (key : string) : ExValue :=
  match properties with
  | [] => ExUndefined
  | (k, v) :: rest => if bool_decide (k = key) then v else ex_lookup rest key
  end.

Definition ex_readProperty (v : ExValue) (key : string) : option ExValue :=
  match v with
  | ExUndefined => None
  | ExObject properties => Some (ex_lookup properties key)
  end.

Definition ex_directive : ExValue :=
  ExObject [("todo", ExObject [("label", ExObject [])])].

(** A page with a root element, an application root with [ng-version] in
    it, and a second application with [ng-version] nested in the first. *)
Definition ex_html : DomElement := MkDomElement false None.
Definition ex_app : DomElement := MkDomElement true (Some ex_html).
Definition ex_nested : DomElement :=
  MkDomElement true (Some (MkDomElement false (Some ex_app))).

(** * Properties *)

(** ** [queryDirectiveForest] *)

Lemma queryLoop_dead position : ∀ forest node,
  DeadIndex position forest → queryLoop position forest node = None.
Proof.
  induction position as [|i rest IH]; intros forest node Hd;
    inversion Hd as [? ? ? Hi|? ? ? n Hi Hrest]; subst; simpl; rewrite Hi; [done|].
  by apply IH.
Qed.

Lemma queryLoop_none position : ∀ forest n0,
  queryLoop position forest (Some n0) = None → DeadIndex position forest.
Proof.
  induction position as [|i rest IH]; intros forest n0; simpl; [done|].
  destruct (arrayAt forest i) as [n|] eqn:Hi; intros H.
  - eapply dead_below; eauto.
  - by apply dead_here.
Qed.

Lemma queryLoop_leads position : ∀ forest n0 n,
  position ≠ [] → queryLoop position forest n0 = Some n → Leads position forest n.
Proof.
  induction position as [|i rest IH]; intros forest n0 n Hne; simpl; [done|].
  destruct (arrayAt forest i) as [m|] eqn:Hi; [|done].
  destruct rest as [|j rest'].
  - simpl. intros [= <-]. by apply leads_last.
  - intros H. eapply leads_step; eauto.
Qed.

Lemma queryLoop_of_leads position forest n :
  Leads position forest n → ∀ n0, queryLoop position forest n0 = Some n.
Proof.
  induction 1 as [i forest n Hi|i rest forest m n Hi _ IH]; intros n0; simpl;
    rewrite Hi; [done|apply IH].
Qed.

Lemma Leads_nonempty position forest n : Leads position forest n → position ≠ [].
Proof. by destruct 1. Qed.

(** C9: the lookup returns [null] exactly when the position is empty or
    some index along it names no existing node, and it returns a node
    exactly when the position leads to that node.  The function is total,
    so no call raises. *)
Theorem C9_queryDirectiveForest_null (position : list Z) (forest : list ComponentTreeNode) :
  (queryDirectiveForest position forest = None ↔
     position = [] ∨ DeadIndex position forest) ∧
  (∀ n, queryDirectiveForest position forest = Some n ↔ Leads position forest n).
Proof.
  unfold queryDirectiveForest. split.
  - destruct position as [|i rest]; simpl.
    + split; auto.
    + split.
      * destruct (arrayAt forest i) as [n|] eqn:Hi; intros H.
        -- right. eapply dead_below; eauto using queryLoop_none.
        -- right. by apply dead_here.
      * intros [?|Hd]; [done|].
        by apply (queryLoop_dead (i :: rest) forest None).
  - intros n. split.
    + destruct position as [|i rest]; [done|].
      rewrite bool_decide_eq_false_2; [|done].
      by apply queryLoop_leads.
    + intros Hl. pose proof (Leads_nonempty _ _ _ Hl) as Hne.
      rewrite bool_decide_eq_false_2 by (by destruct position).
      by apply queryLoop_of_leads.
Qed.

(** ** [equalNode] *)

Lemma everyIdMatches_drop aInjectors : ∀ bInjectors idx,
  length aInjectors = length (drop idx bInjectors) →
  everyIdMatches aInjectors bInjectors idx
  = Some (bool_decide (si_id <$> aInjectors = si_id <$> drop idx bInjectors)).
Proof.
  induction aInjectors as [|a rest IH]; intros bs idx Hlen; simpl.
  - destruct (drop idx bs); [done|discriminate].
  - destruct (drop idx bs) as [|b bs'] eqn:Hdrop; [discriminate|].
    assert (bs !! idx = Some b) as ->.
    { rewrite <-(Nat.add_0_r idx), <-lookup_drop. by rewrite Hdrop. }
    assert (drop (S idx) bs = bs') as Hdrop'.
    { replace (S idx) with (idx + 1) by lia. by rewrite <-drop_drop, Hdrop. }
    simpl in *. case_bool_decide as Hid.
    + rewrite IH, Hdrop' by (rewrite Hdrop'; lia).
      f_equal. apply bool_decide_ext. split; [intros H; cbn; f_equal; [done|exact H]|intros H; cbn in H; by injection H].
    + symmetry. f_equal. apply bool_decide_eq_false_2. intros H; cbn in H. injection H as ? ?. congruence.
Qed.

Lemma everyIdMatches_tail (p q : list SerializedInjector) :
  length p = length q →
  everyIdMatches (tail p) (tail q) 0
  = Some (bool_decide (si_id <$> tail p = si_id <$> tail q)).
Proof.
  intros Hlen. rewrite everyIdMatches_drop; [done|].
  rewrite drop_0. destruct p, q; simpl in *; congruence.
Qed.

Lemma equalNode_tagged collapse a b :
  Tagged a → Tagged b → equalNode collapse a b = Some (equalNodeSpec collapse a b).
Proof.
  unfold Tagged, equalNode, equalNodeSpec, nodePath. intros Ha Hb.
  destruct collapse; simpl; [|by rewrite orb_false_r].
  case_bool_decide as HA; simpl; [|by rewrite orb_false_r].
  case_bool_decide as HB; simpl; [|by rewrite orb_false_r].
  destruct (Ha HA) as [na Hna], (Hb HB) as [nb Hnb]. rewrite Hna, Hnb. simpl.
  case_bool_decide as HO; simpl; [|by rewrite orb_false_r].
  case_bool_decide as HL; simpl; [|by rewrite orb_false_r].
  case_bool_decide as HI; simpl; [done|].
  by apply everyIdMatches_tail.
Qed.

Lemma equalNode_sym collapse a b :
  equalNode collapse a b = equalNode collapse b a.
Proof.
  unfold equalNode.
  rewrite (bool_decide_ext (owner b = owner a) (owner a = owner b)) by done.
  rewrite (bool_decide_ext (id b = id a) (id a = id b)) by done.
  destruct collapse, (bool_decide (type a = "Element")),
    (bool_decide (type b = "Element")), (bool_decide (owner a = owner b)); simpl; try done.
  destruct (node a) as [na|], (node b) as [nb|]; simpl; try done.
  rewrite (bool_decide_ext (length (resolutionPath nb) = length (resolutionPath na))
             (length (resolutionPath na) = length (resolutionPath nb))) by done.
  case_bool_decide as HL; simpl; [|done].
  destruct (bool_decide (id a = id b)); simpl; [done|].
  rewrite !everyIdMatches_tail by done.
  f_equal. by apply bool_decide_ext.
Qed.

Lemma equalNode_refl collapse a :
  Tagged a → equalNode collapse a a = Some true.
Proof.
  intros Ha. rewrite equalNode_tagged by done.
  unfold equalNodeSpec. by rewrite bool_decide_eq_true_2.
Qed.

Lemma equalNode_untagged collapse a b :
  type a ≠ "Element" ∨ type b ≠ "Element" →
  equalNode collapse a b = Some (bool_decide (id a = id b)).
Proof.
  unfold equalNode. intros [H|H]; rewrite (bool_decide_eq_false_2 _ H);
    by rewrite ?andb_false_r.
Qed.

Lemma equalNode_off a b :
  equalNode false a b = Some (bool_decide (id a = id b)).
Proof. done. Qed.

(** C1: on records shaped as [interface InjectorNode] declares (an element
    record carries its node), [equalNode] returns a boolean, and returns
    [true] exactly when the ids are equal, or collapse mode is on, both
    records are elements with the same owner label, their nodes'
    resolution paths have the same length and the ids of the paths beyond
    the first entry agree position by position.  When one of the records
    is not an element, the result is the equality of the ids. *)
Theorem C1_equalNode_rule (collapse : bool) (a b : InjectorNode)
    (Ha : Tagged a) (Hb : Tagged b) :
  (∃ r, equalNode collapse a b = Some r) ∧
  (equalNode collapse a b = Some true ↔
     id a = id b ∨
     (collapse = true ∧ type a = "Element" ∧ type b = "Element" ∧
      owner a = owner b ∧
      ∃ na nb, node a = Some na ∧ node b = Some nb ∧
        length (resolutionPath na) = length (resolutionPath nb) ∧
        ∀ idx, (si_id <$> tail (resolutionPath na)) !! idx
               = (si_id <$> tail (resolutionPath nb)) !! idx)) ∧
  (type a ≠ "Element" ∨ type b ≠ "Element" →
     equalNode collapse a b = Some true ↔ id a = id b).
Proof.
  split; [rewrite equalNode_tagged by done; eauto|]. split.
  - rewrite equalNode_tagged by done. unfold equalNodeSpec, nodePath. split.
    + intros [= H]. apply orb_true_iff in H as [H|H].
      { left. by eapply bool_decide_eq_true_1. }
      right. rewrite !andb_true_iff, !bool_decide_eq_true in H.
      destruct H as [[[[[Hc HA] HB] HO] HL] HI].
      destruct (Ha HA) as [na Hna], (Hb HB) as [nb Hnb].
      rewrite Hna, Hnb in HL, HI.
      repeat split; try done. exists na, nb. repeat split; try done.
      intros idx. by rewrite HI.
    + intros [H|(-> & HA & HB & HO & na & nb & Hna & Hnb & HL & HI)].
      { by rewrite bool_decide_eq_true_2. }
      f_equal. apply orb_true_iff. right. rewrite Hna, Hnb.
      rewrite !andb_true_iff, !bool_decide_eq_true. repeat split; try done.
      by apply list_eq.
  - intros H. rewrite equalNode_untagged by done.
    split; [intros [= ?]; by eapply bool_decide_eq_true_1|intros ?; by rewrite bool_decide_eq_true_2].
Qed.

Lemma C1_witness :
  equalNode true c1_a c1_b = Some true ∧ equalNode false c1_a c1_b = Some false.
Proof.
  assert (Ha : Tagged c1_a) by (intros _; simpl; eauto).
  assert (Hb : Tagged c1_b) by (intros _; simpl; eauto).
  split.
  - apply (proj1 (proj2 (C1_equalNode_rule true c1_a c1_b Ha Hb))). right.
    do 4 (split; [reflexivity|]). eexists _, _.
    do 3 (split; [reflexivity|]). intros idx. reflexivity.
  - reflexivity.
Defined.

(** C10: [equalNode] is symmetric on all records, in both modes, and
    reflexive on every record shaped as [interface InjectorNode] declares. *)
Theorem C10_equalNode_refl_sym (collapse : bool) (a b : InjectorNode)
    (Ha : Tagged a) :
  equalNode collapse a a = Some true ∧
  equalNode collapse a b = equalNode collapse b a.
Proof. split; [by apply equalNode_refl|apply equalNode_sym]. Qed.

Lemma C10_witness :
  equalNode true c1_a c1_a = Some true ∧
  equalNode true c1_a c1_b = equalNode true c1_b c1_a.
Proof.
  apply (C10_equalNode_refl_sym true c1_a c1_b).
  intros _. simpl. eauto.
Defined.

(** ** The merge loop computes [insertPure] *)

Lemma MergedNode_tree_ind (P : MergedNode → Prop) :
  (∀ inj ch, Forall P ch → P (MkMergedNode inj ch)) → ∀ t, P t.
Proof.
  intros H. fix IH 1. intros [inj ch]. apply H.
  induction ch as [|c ch IHch]; constructor; [apply IH|exact IHch].
Qed.

Lemma Hereditary_mono (Q Q' : list InjectorNode → Prop) :
  (∀ l, Q l → Q' l) → ∀ t, Hereditary Q t → Hereditary Q' t.
Proof.
  intros HQ t. induction t as [inj ch IH] using MergedNode_tree_ind.
  inversion 1 as [? ? Hq Hch]; subst. constructor; [by apply HQ|].
  rewrite Forall_forall in *. auto.
Qed.

Lemma HereditaryForest_mono (Q Q' : list InjectorNode → Prop) forest :
  (∀ l, Q l → Q' l) → HereditaryForest Q forest → HereditaryForest Q' forest.
Proof.
  intros HQ [Hq Hf]. split; [by apply HQ|].
  eapply Forall_impl; [done|]. by apply Hereditary_mono.
Qed.

Lemma HereditaryForest_children Q t :
  Hereditary Q t → HereditaryForest Q (children t).
Proof. by intros [inj ch Hq Hch]. Qed.

Lemma tagWithNode_Tagged nd inj : Tagged (tagWithNode nd inj).
Proof. unfold Tagged, tagWithNode. simpl. intros ->. simpl. eauto. Qed.

Section Bridge.
Context (collapse : bool).
Local Abbreviation eqv := (equalNodeSpec collapse).
Local Abbreviation AllTagged := (HereditaryForest (Forall Tagged)).

Lemma insertPath_pure nd path : ∀ level,
  AllTagged level →
  insertPath collapse nd path level
  = Some (insertPure eqv (tagWithNode nd <$> path) level).
Proof.
  induction path as [|inj rest IH]; intros level Hlevel; [done|].
  cbn [insertPath fmap list_fmap insertPure].
  pose proof (tagWithNode_Tagged nd inj) as Hx.
  set (x := tagWithNode nd inj) in *.
  induction level as [|t level IHlevel].
  - cbn. rewrite IH; [done|]. split; constructor.
  - destruct Hlevel as [Hq Hf]. rewrite fmap_cons in Hq.
    apply Forall_cons in Hq as [Ht Hq]. apply Forall_cons in Hf as [Hft Hf].
    cbn [pathExists]. rewrite equalNode_tagged by done.
    cbn [mbind option_bind].
    destruct (eqv (injector t) x) eqn:Heq.
    + cbn. rewrite IH by by apply HereditaryForest_children. done.
    + specialize (IHlevel (conj Hq Hf)).
      destruct (pathExists collapse level x) as [[i|]|]; cbn in *.
      * destruct (level !! i) as [existing|]; cbn in *; [|done].
        destruct (insertPath collapse nd rest (children existing)); cbn in *; [|done].
        by injection IHlevel as <-.
      * destruct (insertPath collapse nd rest []); cbn in *; [|done].
        by injection IHlevel as <-.
      * done.
Qed.
End Bridge.

(** ** Invariants of the merged tree *)

Section Invariant.
Context (eqv : InjectorNode → InjectorNode → bool).
Context (Q : list InjectorNode → Prop) (Px : InjectorNode → Prop).
Hypothesis Q_nil : Q [].
Hypothesis Q_snoc : ∀ l x,
  Q l → Px x → (∀ y, y ∈ l → eqv y x = false) → Q (l ++ [x]).

Lemma insertPure_hereditary path : ∀ level,
  Forall Px path → HereditaryForest Q level →
  HereditaryForest Q (insertPure eqv path level).
Proof.
  induction path as [|x rest IH]; intros level Hpath Hlevel; [done|].
  apply Forall_cons in Hpath as [Hx Hrest].
  cbn [insertPure].
  assert (Hnew : Hereditary Q (MkMergedNode x (insertPure eqv rest []))).
  { destruct (IH [] Hrest) as [Hq Hf]; [by split|]. by constructor. }
  (* the scan keeps what it has passed: [seen] holds the records that
     were compared with [x] and found different *)
  enough (∀ seen lvl,
    (∀ y, y ∈ seen → eqv y x = false) →
    Q (seen ++ (injector <$> lvl)) → Forall (Hereditary Q) lvl →
    let lvl' := (fix scan (lvl : list MergedNode) : list MergedNode :=
         match lvl with
         | [] => [MkMergedNode x (insertPure eqv rest [])]
         | t :: lvl' =>
             if eqv (injector t) x
             then MkMergedNode (injector t) (insertPure eqv rest (children t)) :: lvl'
             else t :: scan lvl'
         end) lvl in
    Q (seen ++ (injector <$> lvl')) ∧ Forall (Hereditary Q) lvl') as Hscan.
  { destruct Hlevel as [Hq Hf].
    apply (Hscan [] level); [by intros y ?%elem_of_nil|done|done]. }
  intros seen lvl. revert seen.
  induction lvl as [|t lvl IHlvl]; intros seen Hseen Hq Hf; cbn zeta.
  - split; [|by constructor]. cbn. rewrite app_nil_r in Hq. by apply Q_snoc.
  - apply Forall_cons in Hf as [Ht Hf].
    destruct (eqv (injector t) x) eqn:Heq.
    + split; [done|]. constructor; [|done].
      destruct (IH (children t) Hrest) as [Hq' Hf'];
        [by apply HereditaryForest_children|]. by constructor.
    + rewrite fmap_cons in Hq |- *.
      destruct (IHlvl (seen ++ [injector t])) as [Hq' Hf'].
      * intros y [Hy|Hy%list_elem_of_singleton]%elem_of_app; [auto|by subst].
      * by rewrite <-app_assoc.
      * done.
      * split; [by rewrite <-app_assoc in Hq'|by constructor].
Qed.

Lemma mergePure_hereditary paths : ∀ tree,
  Forall (Forall Px) paths → HereditaryForest Q tree →
  HereditaryForest Q (mergePure eqv paths tree).
Proof.
  induction paths as [|p paths IH]; intros tree Hp Htree; [done|].
  apply Forall_cons in Hp as [Hp Hps]. cbn.
  apply IH; [done|]. by apply insertPure_hereditary.
Qed.
End Invariant.

Lemma Tagged_snoc (eqv : InjectorNode → InjectorNode → bool) l x :
  Forall Tagged l → Tagged x → (∀ y, y ∈ l → eqv y x = false) →
  Forall Tagged (l ++ [x]).
Proof. intros Hl Hx _. apply Forall_app. split; [done|by constructor]. Qed.

Lemma tagPaths_Tagged injectorPaths : Forall (Forall Tagged) (tagPaths injectorPaths).
Proof.
  unfold tagPaths. apply Forall_fmap, Forall_forall. intros [nd path] _. cbn.
  apply Forall_fmap, Forall_forall. intros inj _. apply tagWithNode_Tagged.
Qed.

Lemma mergePaths_pure collapse injectorPaths : ∀ tree,
  HereditaryForest (Forall Tagged) tree →
  mergePaths collapse injectorPaths tree
  = Some (mergePure (equalNodeSpec collapse) (tagPaths injectorPaths) tree).
Proof.
  induction injectorPaths as [|[nd path] rest IH]; intros tree Htree; [done|].
  cbn. rewrite insertPath_pure by done. cbn. apply IH.
  apply (insertPure_hereditary _ _ Tagged); try done.
  - apply Tagged_snoc.
  - apply Forall_fmap, Forall_forall. intros inj _. apply tagWithNode_Tagged.
Qed.

Lemma HereditaryForest_nil (Q : list InjectorNode → Prop) :
  Q [] → HereditaryForest Q [].
Proof. by split. Qed.

(** The merge loop never raises: every element record it compares was
    tagged with its node first. *)
Lemma mergePaths_total collapse injectorPaths :
  mergePaths collapse injectorPaths []
  = Some (mergePure (equalNodeSpec collapse) (tagPaths injectorPaths) []).
Proof. apply mergePaths_pure. by apply HereditaryForest_nil. Qed.

Lemma Distinct_snoc collapse l x :
  Forall Tagged l ∧ Distinct collapse l → Tagged x →
  (∀ y, y ∈ l → equalNodeSpec collapse y x = false) →
  Forall Tagged (l ++ [x]) ∧ Distinct collapse (l ++ [x]).
Proof.
  intros [Hl Hd] Hx Hnew. split; [by eapply Tagged_snoc|].
  intros i j a b Hij [[Hi Ha]|[-> <-]]%lookup_snoc_Some
    [[Hj Hb]|[-> <-]]%lookup_snoc_Some; try done.
  - by eapply Hd.
  - assert (a ∈ l) as Hin by (by eapply list_elem_of_lookup_2).
    rewrite equalNode_tagged; [by rewrite Hnew|by eapply Forall_forall in Hl|done].
  - assert (b ∈ l) as Hin by (by eapply list_elem_of_lookup_2).
    rewrite equalNode_sym.
    rewrite equalNode_tagged; [by rewrite Hnew|by eapply Forall_forall in Hl|done].
Qed.

(** C3: after every insertion of the merge loop, so for every prefix of
    the list of paths, the merge returns a tree in which no two siblings,
    at the top level and below every node, are equal under [equalNode] in
    the active mode. *)
Theorem C3_no_equal_siblings (collapse : bool)
    (injectorPaths : list (NodeRef * list SerializedInjector)) (k : nat) :
  ∃ tree, mergePaths collapse (take k injectorPaths) [] = Some tree ∧
          HereditaryForest (Distinct collapse) tree.
Proof.
  eexists. split; [apply mergePaths_total|].
  eapply (HereditaryForest_mono (λ l, Forall Tagged l ∧ Distinct collapse l));
    [by intros l [_ ?]|].
  apply (mergePure_hereditary _ _ Tagged).
  - split; [done|]. by intros i j a b _ ?.
  - apply Distinct_snoc.
  - apply tagPaths_Tagged.
  - apply HereditaryForest_nil. split; [done|]. by intros i j a b _ ?.
Qed.

Lemma insertPath_empty collapse nd path :
  insertPath collapse nd path [] = Some (chain (tagWithNode nd <$> path)).
Proof. induction path as [|inj rest IH]; [done|]. cbn. by rewrite IH. Qed.

Lemma tagWithNode_Carries nd path :
  Forall2 (Carries nd) path (tagWithNode nd <$> path).
Proof. induction path as [|r path IH]; constructor; [done|exact IH]. Qed.

(** C4: merging a single path [p] returns a linear chain, one node with
    one child per level down to a leaf, with one record for each record of
    [p], in the order of [p]: the record at each level has the type, the
    owner and the id of the record of [p] at that place, and carries the
    node of the path when it is an element record.  The same holds for
    [injectorTreeReloaded] on a forest whose first root is a single node,
    with [p] its resolution path reversed. *)
Theorem C4_single_path_chain (collapse : bool) (nd : NodeRef)
    (p : list SerializedInjector) :
  (∃ records,
     mergePaths collapse [(nd, p)] [] = Some (chain records) ∧
     Forall2 (Carries nd) p records) ∧
  (∀ rest, ∃ records,
     injectorTreeReloaded collapse (MkDevToolsNode (Some p) [] :: rest)
     = Some (chain records) ∧
     Forall2 (Carries (MkNodeRef p)) (reverse p) records).
Proof.
  split.
  - exists (tagWithNode nd <$> p). split; [|apply tagWithNode_Carries].
    cbn. by rewrite insertPath_empty.
  - intros rest. exists (tagWithNode (MkNodeRef p) <$> reverse p).
    split; [|apply tagWithNode_Carries].
    unfold injectorTreeReloaded. cbn. by rewrite insertPath_empty.
Qed.


(** ** Order of insertion, collapse mode off *)

Section Branches.
Context (eqv : InjectorNode → InjectorNode → bool).
Hypothesis eqv_id : ∀ a b, eqv a b = bool_decide (id a = id b).

Lemma hasBranch_cons k ks t forest :
  hasBranch (k :: ks) (t :: forest) ↔
    (id (injector t) = k ∧ hasBranch ks (children t)) ∨ hasBranch (k :: ks) forest.
Proof.
  cbn. split.
  - intros (t' & [->|Hin]%elem_of_cons & Hk & Hb); [by left|right; eauto].
  - intros [[Hk Hb]|(t' & Hin & Hk & Hb)].
    + exists t. split; [by left|done].
    + exists t'. split; [by right|done].
Qed.

Lemma hasBranch_nil_forest ks : hasBranch ks [] ↔ ks = [].
Proof.
  destruct ks as [|k ks]; cbn; [done|]. split; [|done].
  by intros (t & ?%elem_of_nil & _).
Qed.

Lemma insertPure_branch path : ∀ level ks,
  hasBranch ks (insertPure eqv path level) ↔
    hasBranch ks level ∨ ks `prefix_of` (id <$> path).
Proof.
  induction path as [|x rest IH]; intros level ks.
  - cbn. split; [by left|]. intros [?|H%prefix_nil_inv]; [done|by subst].
  - destruct ks as [|k ks]; [cbn; split; [by left|done]|].
    cbn [insertPure]. rewrite fmap_cons.
    assert (Hpre : (k :: ks) `prefix_of` (id x :: (id <$> rest)) ↔
                   id x = k ∧ ks `prefix_of` (id <$> rest)).
    { split.
      - intros H. split; [symmetry; by eapply prefix_cons_inv_1|by eapply prefix_cons_inv_2].
      - intros [<- H]. by apply prefix_cons. }
    rewrite Hpre. clear Hpre.
    induction level as [|t level IHlevel].
    + cbn -[hasBranch]. rewrite hasBranch_cons. cbn [injector children].
      rewrite IH, !hasBranch_nil_forest.
      split; [|tauto]. intros [[? [->|?]]|?]; [right|tauto|tauto].
      split; [done|apply prefix_nil].
    + cbn -[hasBranch]. rewrite eqv_id. case_bool_decide as Hid.
      * rewrite !hasBranch_cons. cbn [injector children]. rewrite IH, Hid. tauto.
      * rewrite !hasBranch_cons, IHlevel. tauto.
Qed.

Lemma mergePure_branch paths : ∀ tree ks,
  hasBranch ks (mergePure eqv paths tree) ↔
    hasBranch ks tree ∨ ∃ p, p ∈ paths ∧ ks `prefix_of` (id <$> p).
Proof.
  induction paths as [|p paths IH]; intros tree ks.
  - cbn. split; [by left|]. by intros [?|(p & ?%elem_of_nil & _)].
  - change (mergePure eqv (p :: paths) tree)
      with (mergePure eqv paths (insertPure eqv p tree)).
    rewrite IH, insertPure_branch. split.
    + intros [[?|?]|(q & ? & ?)]; [by left|right; exists p|right; exists q];
        (split; [|done]); by constructor.
    + intros [?|(q & [->|?]%elem_of_cons & ?)]; [by left; left|by left; right|right; eauto].
Qed.

Lemma DistinctIds_snoc l x :
  DistinctIds l → True → (∀ y, y ∈ l → eqv y x = false) → DistinctIds (l ++ [x]).
Proof.
  unfold DistinctIds. intros Hl _ Hnew. rewrite fmap_app. cbn.
  apply NoDup_app. split; [done|]. split; [|apply NoDup_singleton].
  intros k (y & -> & Hy)%list_elem_of_fmap Hk%list_elem_of_singleton.
  specialize (Hnew y Hy). rewrite eqv_id in Hnew.
  by apply bool_decide_eq_false_1 in Hnew.
Qed.

Lemma mergePure_DistinctIds paths :
  HereditaryForest DistinctIds (mergePure eqv paths []).
Proof.
  apply (mergePure_hereditary _ _ (λ _, True)).
  - apply NoDup_nil_2.
  - apply DistinctIds_snoc.
  - apply Forall_forall. intros p _. apply Forall_forall. done.
  - apply HereditaryForest_nil, NoDup_nil_2.
Qed.
End Branches.

(** Two forests without repeated sibling ids that have the same branches
    are the same up to the order of siblings. *)

Lemma forest_ind (P : list MergedNode → Prop) :
  P [] →
  (∀ inj ch forest, P ch → P forest → P (MkMergedNode inj ch :: forest)) →
  ∀ forest, P forest.
Proof.
  intros Hnil Hcons.
  assert (Hch : ∀ t, P (children t)).
  { induction t as [inj ch IH] using MergedNode_tree_ind. cbn.
    induction ch as [|[inj' ch'] ch IHch]; [done|].
    apply Forall_cons in IH as [Hc IH]. apply Hcons; [exact Hc|by apply IHch]. }
  induction forest as [|[inj ch] forest IH]; [done|].
  apply Hcons; [apply (Hch (MkMergedNode inj ch))|done].
Qed.

Lemma hasBranch_perm ks f g : f ≡ₚ g → hasBranch ks f → hasBranch ks g.
Proof.
  intros Hperm. destruct ks as [|k ks]; [done|].
  intros (t & Hin & Hk & Hb). exists t. by rewrite <-Hperm.
Qed.

Lemma HereditaryForest_DistinctIds_perm f g :
  f ≡ₚ g → HereditaryForest DistinctIds f → HereditaryForest DistinctIds g.
Proof.
  intros Hperm [Hq Hf]. split.
  - unfold DistinctIds in *. by rewrite <-Hperm.
  - by rewrite <-Hperm.
Qed.

Lemma HereditaryForest_cons_inv Q t forest :
  (∀ x l, Q (x :: l) → Q l) →
  HereditaryForest Q (t :: forest) →
  Hereditary Q t ∧ HereditaryForest Q forest.
Proof.
  intros HQ [Hq Hf]. apply Forall_cons in Hf as [Ht Hf].
  split; [done|]. split; [|done]. rewrite fmap_cons in Hq. by eapply HQ.
Qed.

Lemma DistinctIds_tail x l : DistinctIds (x :: l) → DistinctIds l.
Proof. unfold DistinctIds. rewrite fmap_cons. by intros [_ ?]%NoDup_cons. Qed.

Lemma DistinctIds_head t forest t' :
  DistinctIds (injector <$> t :: forest) → t' ∈ forest →
  id (injector t') ≠ id (injector t).
Proof.
  unfold DistinctIds. rewrite !fmap_cons. intros [Hnotin _]%NoDup_cons Hin Heq.
  apply Hnotin. rewrite <-Heq. apply list_elem_of_fmap. exists (injector t').
  split; [done|]. apply list_elem_of_fmap. eauto.
Qed.

(** With the same leading id and the same branches, the branches below the
    two leading nodes, and those of the two remainders, are the same. *)
Lemma branches_split t1 f1 t2 f2 :
  DistinctIds (injector <$> t1 :: f1) → DistinctIds (injector <$> t2 :: f2) →
  id (injector t1) = id (injector t2) →
  (∀ ks, hasBranch ks (t1 :: f1) → hasBranch ks (t2 :: f2)) →
  (∀ ks, hasBranch ks (children t1) → hasBranch ks (children t2)) ∧
  (∀ ks, hasBranch ks f1 → hasBranch ks f2).
Proof.
  intros Hd1 Hd2 Hid Hsub. split; intros ks Hks.
  - destruct (Hsub (id (injector t1) :: ks)) as (t & Hin & Hk & Hb).
    { exists t1. split; [by left|done]. }
    apply elem_of_cons in Hin as [->|Hin]; [done|].
    destruct (DistinctIds_head t2 f2 t Hd2 Hin). congruence.
  - destruct ks as [|k ks]; [done|].
    destruct Hks as (t & Hin & Hk & Hb).
    destruct (Hsub (k :: ks)) as (t' & Hin' & Hk' & Hb').
    { exists t. split; [by right|done]. }
    apply elem_of_cons in Hin' as [->|Hin']; [|by exists t'].
    destruct (DistinctIds_head t1 f1 t Hd1 Hin). congruence.
Qed.

Lemma sameShape_of_branches : ∀ f1 f2,
  HereditaryForest DistinctIds f1 → HereditaryForest DistinctIds f2 →
  (∀ ks, hasBranch ks f1 ↔ hasBranch ks f2) →
  sameShapeForest f1 f2.
Proof.
  induction f1 as [|a cs f1 IHcs IHf1] using forest_ind; intros f2 H1 H2 Hsame.
  - destruct f2 as [|t2 f2]; [by exists []|].
    assert (hasBranch [id (injector t2)] []) as (t & ?%elem_of_nil & _); [|done].
    apply Hsame. exists t2. split; [by left|done].
  - set (t1 := MkMergedNode a cs) in *.
    assert (hasBranch [id a] f2) as (t2 & Hin & Hk & _).
    { apply Hsame. exists t1. split; [by left|done]. }
    apply list_elem_of_split in Hin as (pre & post & ->).
    assert (Hperm : pre ++ t2 :: post ≡ₚ t2 :: (pre ++ post))
      by (by rewrite Permutation_middle).
    apply (HereditaryForest_DistinctIds_perm _ _ Hperm) in H2.
    assert (Hsame' : ∀ ks, hasBranch ks (t1 :: f1) ↔ hasBranch ks (t2 :: (pre ++ post))).
    { intros ks. rewrite Hsame. split; apply hasBranch_perm; by rewrite Hperm. }
    pose proof (proj1 H1) as Hd1. pose proof (proj1 H2) as Hd2.
    destruct (branches_split t1 f1 t2 (pre ++ post) Hd1 Hd2) as [Hc12 Hf12];
      [done|by intros ks; apply Hsame'|].
    destruct (branches_split t2 (pre ++ post) t1 f1 Hd2 Hd1) as [Hc21 Hf21];
      [done|by intros ks; apply Hsame'|].
    apply (HereditaryForest_cons_inv _ _ _ DistinctIds_tail) in H1 as [Ht1 Hf1].
    apply (HereditaryForest_cons_inv _ _ _ DistinctIds_tail) in H2 as [Ht2 Hf2].
    destruct (IHf1 (pre ++ post)) as (g' & Hg' & Hall); [done|done|by split; auto|].
    destruct (IHcs (children t2)) as (ds' & Hds' & Hch).
    { by apply (HereditaryForest_children _ t1). }
    { by apply HereditaryForest_children. }
    { by split; auto. }
    exists (t2 :: g'). split; [by rewrite Hperm, Hg'|].
    constructor; [|done]. destruct t2 as [b ds]. by econstructor.
Qed.

Lemma equalNodeSpec_off a b :
  equalNodeSpec false a b = bool_decide (id a = id b).
Proof. unfold equalNodeSpec. cbn. by rewrite orb_false_r. Qed.

Lemma equalNodeSpec_refl collapse a : equalNodeSpec collapse a a = true.
Proof. unfold equalNodeSpec. by rewrite bool_decide_eq_true_2. Qed.

Section Idempotent.
Context (eqv : InjectorNode → InjectorNode → bool).
Hypothesis eqv_refl : ∀ a, eqv a a = true.

Lemma insertPure_idempotent path : ∀ level,
  insertPure eqv path (insertPure eqv path level) = insertPure eqv path level.
Proof.
  induction path as [|x rest IH]; intros level; [done|].
  induction level as [|t level IHlevel]; cbn.
  - by rewrite eqv_refl, IH.
  - destruct (eqv (injector t) x) eqn:Heq; cbn; rewrite Heq.
    + by rewrite IH.
    + f_equal. apply IHlevel.
Qed.
End Idempotent.

Lemma mergePaths_snoc collapse injectorPaths np :
  mergePaths collapse (injectorPaths ++ [np]) []
  = Some (insertPure (equalNodeSpec collapse) (tagWithNode np.1 <$> np.2)
            (mergePure (equalNodeSpec collapse) (tagPaths injectorPaths) [])).
Proof.
  rewrite mergePaths_total. unfold tagPaths, mergePure.
  by rewrite fmap_app, foldl_app.
Qed.

(** C2, amended: with collapse mode off, merging the same paths in two
    different orders returns the same tree up to the order of siblings,
    nodes compared by the id of their record; and in both modes inserting a
    path a second time right after the first changes nothing. *)
Theorem C2_order_independent_collapse_off
    (injectorPaths injectorPaths' : list (NodeRef * list SerializedInjector))
    (Hperm : injectorPaths ≡ₚ injectorPaths') :
  (∃ tree tree',
      mergePaths false injectorPaths [] = Some tree ∧
      mergePaths false injectorPaths' [] = Some tree' ∧
      sameShapeForest tree tree') ∧
  (∀ collapse np,
      mergePaths collapse (injectorPaths ++ [np; np]) []
      = mergePaths collapse (injectorPaths ++ [np]) []).
Proof.
  split.
  - eexists _, _. split; [apply mergePaths_total|]. split; [apply mergePaths_total|].
    apply sameShape_of_branches;
      [apply mergePure_DistinctIds, equalNodeSpec_off
      |apply mergePure_DistinctIds, equalNodeSpec_off|].
    intros ks. rewrite !mergePure_branch by apply equalNodeSpec_off.
    assert (Hp : tagPaths injectorPaths ≡ₚ tagPaths injectorPaths')
      by (unfold tagPaths; by rewrite Hperm).
    split; (intros [?|(p & Hin & ?)]; [by left|right; exists p]);
      (split; [|done]); [by rewrite <-Hp|by rewrite Hp].
  - intros collapse np.
    replace (injectorPaths ++ [np; np]) with ((injectorPaths ++ [np]) ++ [np])
      by (by rewrite <-app_assoc).
    rewrite (mergePaths_snoc collapse (injectorPaths ++ [np])).
    rewrite mergePaths_snoc. f_equal.
    unfold tagPaths, mergePure. rewrite fmap_app, foldl_app. cbn.
    apply insertPure_idempotent, equalNodeSpec_refl.
Qed.

Lemma C2_witness :
  ∃ tree tree',
    mergePaths false c2_order1 [] = Some tree ∧
    mergePaths false c2_order2 [] = Some tree' ∧
    sameShapeForest tree tree'.
Proof.
  apply (C2_order_independent_collapse_off c2_order1 c2_order2).
  apply (Permutation_rev c2_order1).
Defined.

(** C2 as stated fails with collapse mode on: the same three paths, merged
    in two orders, give a tree of three nodes in which [f] was merged into
    [e], and a tree of four nodes in which [e] and [f] are siblings. *)
Lemma C2_counterexample :
  c2_order1 ≡ₚ c2_order2 ∧
  mergePaths true c2_order1 [] = Some c2_tree1 ∧
  mergePaths true c2_order2 [] = Some c2_tree2 ∧
  forestSize c2_tree1 = 3 ∧ forestSize c2_tree2 = 4 ∧
  ¬ sameShapeForest c2_tree1 c2_tree2.
Proof.
  split; [apply (Permutation_rev c2_order1)|].
  split; [reflexivity|]. split; [reflexivity|].
  split; [reflexivity|]. split; [reflexivity|].
  intros (g' & Hg' & Hall).
  apply Permutation_singleton_l in Hg' as <-.
  apply Forall2_cons_1 in Hall as [Hm _].
  inversion Hm as [a b cs ds ds' _ Hds Hch]; subst.
  apply Forall2_length in Hch. apply Permutation_length in Hds.
  cbn in *. congruence.
Qed.


(** ** Serializing one record *)

Section SerializerFacts.
Context (getDirectives : ObjRef → list ObjRef).
Context (getComponent : ObjRef → option ObjRef).
Context (isComment : ObjRef → bool).
Context (constructorName : ObjRef → string).
Context (ownerName : ObjRef → option string).
Context (randomUUID : nat → string).

Local Abbreviation serializeInjector' :=
  (serializeInjector getDirectives getComponent isComment constructorName
     ownerName randomUUID).
Local Abbreviation ownerDirectives' :=
  (ownerDirectives getDirectives getComponent isComment).

Lemma assignId_lookup owner st :
  injectorMap (assignId randomUUID owner st).1 !! owner
  = Some (assignId randomUUID owner st).2.
Proof.
  unfold assignId. destruct (injectorMap st !! owner) eqn:Hm; cbn; [done|].
  by rewrite lookup_insert_eq.
Qed.

Lemma assignId_container owner st :
  containerInjectorIdToInstance (assignId randomUUID owner st).1
  = containerInjectorIdToInstance st.
Proof. unfold assignId. by destruct (injectorMap st !! owner). Qed.

Lemma serializeInjector_id inj st :
  (serializeInjector' inj st).2.(si_id) = (assignId randomUUID (raw_owner inj) st).2
  ∧ injectorMap (serializeInjector' inj st).1
    = injectorMap (assignId randomUUID (raw_owner inj) st).1
  ∧ uuidCalls (serializeInjector' inj st).1
    = uuidCalls (assignId randomUUID (raw_owner inj) st).1.
Proof.
  unfold serializeInjector.
  destruct (assignId randomUUID (raw_owner inj) st) as [st1 uuid].
  by case_bool_decide.
Qed.

Lemma ownerDirectives_component owner c :
  isComment owner = false → getComponent owner = Some c →
  ownerDirectives' owner = c :: getDirectives owner.
Proof. intros Hcomment Hcomp. unfold ownerDirectives. by rewrite Hcomment, Hcomp. Qed.

Lemma ownerDirectives_plain owner :
  isComment owner = true ∨ getComponent owner = None →
  ownerDirectives' owner = getDirectives owner.
Proof.
  intros [H|H]; unfold ownerDirectives; rewrite H; [done|].
  by destruct (negb (isComment owner)).
Qed.

Lemma serializeInjector_element inj st :
  raw_type inj = "Element" →
  si_owner (serializeInjector' inj st).2
  = ownerLabel (constructorName <$> ownerDirectives' (raw_owner inj)).
Proof.
  intros Htype. unfold serializeInjector.
  destruct (assignId randomUUID (raw_owner inj) st) as [st1 uuid].
  by rewrite bool_decide_eq_true_2 by done.
Qed.

(** C6: the serialized owner of an element record is a single label.
    When the owner is no comment node and has a component, the label is
    the name of the component if the owner hosts no directive, and
    otherwise that name followed by the names of the directives, separated
    by a comma and a space, in square brackets.  When the owner is a
    comment node or has no component, and hosts at least one directive,
    the label is made in the same way from the first directive and the
    directives after it. *)
Theorem C6_element_label (inj : RawInjector) (st : State)
    (Htype : raw_type inj = "Element") :
  (∀ c, isComment (raw_owner inj) = false →
     getComponent (raw_owner inj) = Some c →
     si_owner (serializeInjector' inj st).2
     = Some (match getDirectives (raw_owner inj) with
             | [] => constructorName c
             | _ :: _ =>
                 constructorName c +:+ "["
                 +:+ String.concat ", " (constructorName <$> getDirectives (raw_owner inj))
                 +:+ "]"
             end))
  ∧ (∀ d ds, isComment (raw_owner inj) = true ∨ getComponent (raw_owner inj) = None →
     getDirectives (raw_owner inj) = d :: ds →
     si_owner (serializeInjector' inj st).2
     = Some (match ds with
             | [] => constructorName d
             | _ :: _ =>
                 constructorName d +:+ "["
                 +:+ String.concat ", " (constructorName <$> ds) +:+ "]"
             end)).
Proof.
  split.
  - intros c Hcomment Hcomp.
    rewrite serializeInjector_element, (ownerDirectives_component _ c) by done.
    cbn. by destruct (getDirectives (raw_owner inj)).
  - intros d ds Hplain Hdirs.
    rewrite serializeInjector_element, ownerDirectives_plain, Hdirs by done.
    cbn. by destruct ds.
Qed.


(** An element record whose owner hosts no directive and no component:
    the loop body returns a record, with the owner undefined and the
    assigned id, and the loop goes on with the rest of the path. *)
Lemma serializeInjector_no_owner (inj : RawInjector) (st : State)
    (Htype : raw_type inj = "Element")
    (Hdirs : getDirectives (raw_owner inj) = [])
    (Hcomp : isComment (raw_owner inj) = true ∨ getComponent (raw_owner inj) = None) :
  ∃ st' s,
    serializeInjector' inj st = (st', s) ∧
    si_owner s = None ∧ si_type s = "Element" ∧
    injectorMap st' !! raw_owner inj = Some (si_id s) ∧
    ∀ rest,
      serializePath getDirectives getComponent isComment constructorName
        ownerName randomUUID (inj :: rest) st
      = let r := serializePath getDirectives getComponent isComment constructorName
                   ownerName randomUUID rest st' in
        (r.1, s :: r.2).
Proof.
  pose proof (assignId_lookup (raw_owner inj) st) as Hm.
  assert (Hempty : ownerDirectives' (raw_owner inj) = []).
  { by rewrite ownerDirectives_plain, Hdirs. }
  cbn [serializePath]. unfold serializeInjector.
  destruct (assignId randomUUID (raw_owner inj) st) as [st1 uuid].
  rewrite bool_decide_eq_true_2 by done. rewrite Hempty.
  eexists _, _. split; [reflexivity|]. cbn in *. repeat split; try done.
  intros rest. by destruct (serializePath _ _ _ _ _ _ rest st1).
Qed.
End SerializerFacts.

Lemma C6_witness :
  si_owner (serializeInjector ex_getDirectives ex_getComponent ex_isComment
              ex_constructorName ex_ownerName ex_randomUUID ex_element ex_state).2
  = Some "TodoComponent[TooltipDirective, SampleDirective]" ∧
  si_owner (serializeInjector (λ _, [2%positive; 3%positive]) (λ _, None) (λ _, true)
              ex_constructorName ex_ownerName ex_randomUUID ex_comment ex_state).2
  = Some "TooltipDirective[SampleDirective]".
Proof.
  split.
  - apply (proj1 (C6_element_label ex_getDirectives ex_getComponent ex_isComment
             ex_constructorName ex_ownerName ex_randomUUID ex_element ex_state
             eq_refl) 1%positive); reflexivity.
  - apply (proj2 (C6_element_label (λ _, [2%positive; 3%positive]) (λ _, None)
             (λ _, true) ex_constructorName ex_ownerName ex_randomUUID ex_comment
             ex_state eq_refl) 2%positive [3%positive]); [by left|reflexivity].
Defined.



(** ** The identity map during a pass over the forest *)

Lemma IndexedNode_tree_ind (P : IndexedNode → Prop) :
  (∀ position element component directives nativeElement children,
     Forall P children →
     P (MkIndexedNode position element component directives nativeElement children)) →
  ∀ n, P n.
Proof.
  intros H. fix IH 1. intros [position element component directives nativeElement children].
  apply H. induction children as [|c children IHc]; constructor; [apply IH|exact IHc].
Qed.

Lemma mapWithState_cons {A B S : Type} (f : A → S → option (S * B)) x xs st :
  mapWithState f (x :: xs) st
  = r ← f x st; rs ← mapWithState f xs r.1; Some (rs.1, r.2 :: rs.2).
Proof. done. Qed.

Section IdentityMap.
Context (getDirectiveId : ObjRef → option nat).
Context (getInjectorResolutionPath : option ObjRef → option (list RawInjector)).
Context (getDirectives : ObjRef → list ObjRef).
Context (getComponent : ObjRef → option ObjRef).
Context (isComment : ObjRef → bool).
Context (constructorName : ObjRef → string).
Context (ownerName : ObjRef → option string).
Context (randomUUID : nat → string).
Hypothesis uuid_inj : ∀ i j, randomUUID i = randomUUID j → i = j.

Local Abbreviation serializeInjector' :=
  (serializeInjector getDirectives getComponent isComment constructorName
     ownerName randomUUID).
Local Abbreviation serializePath' :=
  (serializePath getDirectives getComponent isComment constructorName
     ownerName randomUUID).
Local Abbreviation prepareNode' :=
  (prepareNode getDirectiveId getInjectorResolutionPath getDirectives
     getComponent isComment constructorName ownerName randomUUID).
Local Abbreviation visitedInjectors' := (visitedInjectors getInjectorResolutionPath).
Local Abbreviation PassSpec' := (PassSpec randomUUID).

Lemma PassSpec_nil c0 st : PassSpec' c0 st [] [] st.
Proof.
  intros Hinv. split; [done|]. split; [done|]. split; [constructor|].
  intros o. rewrite fmap_nil, elem_of_nil. tauto.
Qed.

Lemma Recorded_extends st st' raws sers :
  Extends st st' → Recorded st raws sers → Recorded st' raws sers.
Proof.
  intros [Hsub _] Hrec. eapply Forall2_impl; [exact Hrec|].
  intros r s Hrs. cbn in Hrs |- *. eapply lookup_weaken; [exact Hrs|exact Hsub].
Qed.

Lemma PassSpec_app c0 st st1 st2 raws1 sers1 raws2 sers2 :
  PassSpec' c0 st raws1 sers1 st1 → PassSpec' c0 st1 raws2 sers2 st2 →
  PassSpec' c0 st (raws1 ++ raws2) (sers1 ++ sers2) st2.
Proof.
  intros H1 H2 Hinv.
  destruct (H1 Hinv) as (Hinv1 & Hext1 & Hrec1 & Hdom1).
  destruct (H2 Hinv1) as (Hinv2 & Hext2 & Hrec2 & Hdom2).
  split; [done|]. split; [|split].
  - destruct Hext1, Hext2. split; [by etrans|lia].
  - apply Forall2_app; [by eapply Recorded_extends|done].
  - intros o. rewrite Hdom2, Hdom1, fmap_app, elem_of_app. tauto.
Qed.

Lemma assignId_pass c0 owner st :
  let st' := (assignId randomUUID owner st).1 in
  DrawnIds randomUUID c0 st →
  DrawnIds randomUUID c0 st' ∧ Extends st st' ∧
  (∀ o, is_Some (injectorMap st' !! o) ↔ is_Some (injectorMap st !! o) ∨ o = owner).
Proof.
  cbn zeta. intros (Hc & Hdrawn & Hinj). unfold assignId.
  destruct (injectorMap st !! owner) as [u|] eqn:Hm; cbn.
  - split; [done|]. split; [done|]. intros o. split; [by left|].
    intros [?| ->]; [done|by eexists].
  - split; [|split].
    + split; [cbn; lia|]. split; cbn.
      * intros o u. rewrite lookup_insert. case_decide as Ho.
        -- intros [= <-]. exists (uuidCalls st). split; [lia|done].
        -- intros Hu. destruct (Hdrawn o u Hu) as (k & Hk & ->).
           exists k. split; [lia|done].
      * intros o1 o2 u. rewrite !lookup_insert.
        repeat case_decide; subst; try done.
        -- intros [= <-] Hu. destruct (Hdrawn o2 _ Hu) as (k & Hk & Heq).
           apply uuid_inj in Heq. lia.
        -- intros Hu [= <-]. destruct (Hdrawn o1 _ Hu) as (k & Hk & Heq).
           apply uuid_inj in Heq. lia.
        -- apply Hinj.
    + split; [by apply insert_subseteq|cbn; lia].
    + intros o. rewrite lookup_insert. case_decide as Ho.
      * subst. split; [by right|by eexists].
      * split; [by left|]. by intros [?|?].
Qed.

Lemma serializeInjector_pass c0 inj st :
  PassSpec' c0 st [inj] [(serializeInjector' inj st).2] (serializeInjector' inj st).1.
Proof.
  intros Hinv.
  destruct (serializeInjector_id getDirectives getComponent isComment
              constructorName ownerName randomUUID inj st) as (Hid & Hmap & Hcalls).
  pose proof (assignId_lookup randomUUID (raw_owner inj) st) as Hlook.
  destruct (assignId_pass c0 (raw_owner inj) st Hinv) as (Hinv' & Hext & Hdom).
  unfold DrawnIds, Extends, Recorded in *.
  rewrite Hmap, Hcalls. split; [done|]. split; [done|]. split.
  - constructor; [|constructor]. by rewrite Hid.
  - intros o. rewrite Hdom. cbn. rewrite list_elem_of_singleton. tauto.
Qed.

Lemma serializePath_pass c0 path : ∀ st,
  PassSpec' c0 st path (serializePath' path st).2 (serializePath' path st).1.
Proof.
  induction path as [|inj rest IH]; intros st; [apply PassSpec_nil|].
  cbn [serializePath].
  pose proof (serializeInjector_pass c0 inj st) as H1.
  destruct (serializeInjector' inj st) as [st1 s].
  specialize (IH st1). destruct (serializePath' rest st1) as [st2 ss].
  apply (PassSpec_app c0 st st1 st2 [inj] [s] rest ss H1 IH).
Qed.

Lemma mapWithState_pass c0 {A B : Type} (f : A → State → option (State * B))
    (V : A → list RawInjector) (E : B → list SerializedInjector) xs :
  Forall (λ x, ∀ st st' y, f x st = Some (st', y) → PassSpec' c0 st (V x) (E y) st') xs →
  ∀ st st' ys, mapWithState f xs st = Some (st', ys) →
    PassSpec' c0 st (flat_map V xs) (flat_map E ys) st'.
Proof.
  induction 1 as [|x xs Hx _ IH]; intros st st' ys.
  - intros [= <- <-]. apply PassSpec_nil.
  - rewrite mapWithState_cons.
    destruct (f x st) as [[st1 y]|] eqn:Hf; [|done]. cbn.
    destruct (mapWithState f xs st1) as [[st2 ys']|] eqn:Hmap; [|done]. cbn.
    intros [= <- <-]. cbn. apply (PassSpec_app c0 st st1 st2); eauto.
Qed.

Lemma prepareNode_pass c0 n : ∀ st st' out,
  prepareNode' true n st = Some (st', out) →
  PassSpec' c0 st (visitedInjectors' n) (emittedInjectors out) st'.
Proof.
  induction n as [position element component directives nativeElement children IH]
    using IndexedNode_tree_ind.
  intros st st' out. cbn [prepareNode visitedInjectors].
  destruct (mapWithState (prepareNode' true) children st) as [[st1 outs]|] eqn:Hch;
    [|done].
  apply (mapWithState_pass c0 _ visitedInjectors' emittedInjectors _ IH) in Hch.
  cbn. destruct (getInjectorResolutionPath nativeElement) as [path|]; [|done]. cbn.
  pose proof (serializePath_pass c0 path st1) as Hpath.
  destruct (serializePath' path st1) as [st2 path'].
  intros [= <- <-]. cbn. by eapply PassSpec_app.
Qed.

Lemma prepareForest_pass c0 roots st st' out :
  prepareForestForSerialization getDirectiveId getInjectorResolutionPath
    getDirectives getComponent isComment constructorName ownerName randomUUID
    true roots st = Some (st', out) →
  PassSpec' c0 st (flat_map visitedInjectors' roots) (flat_map emittedInjectors out) st'.
Proof.
  apply (mapWithState_pass c0 _ visitedInjectors' emittedInjectors).
  apply Forall_forall. intros n _. apply prepareNode_pass.
Qed.

Lemma DrawnIds_clear st : DrawnIds randomUUID (uuidCalls st) (clearInjectorMap st).
Proof.
  split; [done|]. split.
  - intros o u. cbn. by rewrite lookup_empty.
  - intros o1 o2 u. cbn. by rewrite lookup_empty.
Qed.

(** C5: a rebuild request first empties the identity map, so it computes
    what the serialization computes from an empty map.  When it returns,
    and given that [randomUUID] never returns the same value twice: the
    id of every emitted record is the id the map holds for the owner of
    the raw record it was made from, so that two records have the same
    id exactly when they have the same owner; the map holds the owners
    seen during this pass and no other; and each id in it was drawn
    during this pass.  An owner that is not in the map gets the next
    draw, which is recorded; an owner that is in the map gets the
    recorded id and the map stays as it is. *)
Theorem C5_identity_map (forest : list IndexedNode) (st st' : State)
    (out : list SerializableComponentTreeNode)
    (Hrun : getLatestInjectorGraphCallback getDirectiveId getInjectorResolutionPath
              getDirectives getComponent isComment constructorName ownerName
              randomUUID forest st = Some (st', out)) :
  let raws := flat_map visitedInjectors' forest in
  let sers := flat_map emittedInjectors out in
  (∀ m,
     getLatestInjectorGraphCallback getDirectiveId getInjectorResolutionPath
       getDirectives getComponent isComment constructorName ownerName
       randomUUID forest
       (MkState m (containerInjectorIdToInstance st) (uuidCalls st))
     = Some (st', out)) ∧
  Recorded st' raws sers ∧
  (∀ i j ri rj si sj,
     raws !! i = Some ri → raws !! j = Some rj →
     sers !! i = Some si → sers !! j = Some sj →
     (raw_owner ri = raw_owner rj ↔ si_id si = si_id sj)) ∧
  (∀ o, is_Some (injectorMap st' !! o) ↔ o ∈ raw_owner <$> raws) ∧
  (∀ o u, injectorMap st' !! o = Some u →
     ∃ k, (uuidCalls st ≤ k < uuidCalls st')%nat ∧ u = randomUUID k) ∧
  (∀ s0 owner,
     injectorMap s0 !! owner = None →
     assignId randomUUID owner s0
     = (MkState (<[owner := randomUUID (uuidCalls s0)]> (injectorMap s0))
          (containerInjectorIdToInstance s0) (S (uuidCalls s0)),
        randomUUID (uuidCalls s0))) ∧
  (∀ s0 owner u,
     injectorMap s0 !! owner = Some u → assignId randomUUID owner s0 = (s0, u)).
Proof.
  cbn zeta. unfold getLatestInjectorGraphCallback in Hrun.
  destruct (prepareForest_pass (uuidCalls st) forest _ st' out Hrun (DrawnIds_clear st))
    as ((Hc & Hdrawn & Hinj) & Hext & Hrec & Hdom).
  split; [done|]. split; [done|]. split; [|split; [|split; [|split]]].
  - intros i j ri rj si sj Hri Hrj Hsi Hsj.
    pose proof (Forall2_lookup_lr _ _ _ _ _ _ Hrec Hri Hsi) as Hi.
    pose proof (Forall2_lookup_lr _ _ _ _ _ _ Hrec Hrj Hsj) as Hj.
    cbn in Hi, Hj. split.
    + intros Heq. rewrite Heq in Hi. congruence.
    + intros Heq. rewrite Heq in Hi. by eapply Hinj.
  - intros o. rewrite Hdom. cbn. rewrite lookup_empty. split; [|by right].
    by intros [[? [=]]|?].
  - done.
  - intros s0 owner Hnone. unfold assignId. by rewrite Hnone.
  - intros s0 owner u Hsome. unfold assignId. by rewrite Hsome.
Qed.
End IdentityMap.

Lemma ex_randomUUID_inj i : ∀ j, ex_randomUUID i = ex_randomUUID j → i = j.
Proof.
  induction i as [|i IH]; intros [|j]; cbn; try done.
  - destruct j; discriminate.
  - destruct i; discriminate.
  - intros [= H]. f_equal. by apply IH.
Qed.

Lemma C5_witness :
  ∃ st' out,
    getLatestInjectorGraphCallback ex_getDirectiveId ex_getInjectorResolutionPath
      ex_getDirectives ex_getComponent ex_isComment ex_constructorName ex_ownerName
      ex_randomUUID ex_forest ex_state = Some (st', out) ∧
    Recorded st' (flat_map (visitedInjectors ex_getInjectorResolutionPath) ex_forest)
      (flat_map emittedInjectors out).
Proof.
  eexists _, _. split; [vm_compute; reflexivity|].
  eapply (C5_identity_map ex_getDirectiveId ex_getInjectorResolutionPath
            ex_getDirectives ex_getComponent ex_isComment ex_constructorName
            ex_ownerName ex_randomUUID (λ i j, ex_randomUUID_inj i j) ex_forest ex_state).
  vm_compute. reflexivity.
Defined.


(** ** Merging paths that are already in the tree *)

Lemma treeSize_node inj ch : treeSize (MkMergedNode inj ch) = S (forestSize ch).
Proof. done. Qed.

Lemma forestSize_cons t f : forestSize (t :: f) = treeSize t + forestSize f.
Proof. done. Qed.

Lemma forestSize_app f g : forestSize (f ++ g) = forestSize f + forestSize g.
Proof. unfold forestSize. by rewrite fmap_app, list_sum_app. Qed.

Section Routes.
Context (eqv : InjectorNode → InjectorNode → bool).
Hypothesis eqv_refl : ∀ a, eqv a a = true.

Lemma Routed_insert path : ∀ forest q,
  Routed eqv path forest → Routed eqv path (insertPure eqv q forest).
Proof.
  induction path as [|x rest IH]; intros forest q; [done|].
  destruct q as [|y qrest]; [done|].
  intros (pre & n & post & -> & Hpre & Hn & Hrest).
  cbn [insertPure].
  induction pre as [|a pre IHpre]; cbn.
  - destruct (eqv (injector n) y).
    + exists [], (MkMergedNode (injector n) (insertPure eqv qrest (children n))), post.
      repeat split; [by intros t ?%elem_of_nil|done|by apply IH].
    + eexists [], n, _. split; [reflexivity|].
      repeat split; [by intros t ?%elem_of_nil|done|done].
  - destruct (eqv (injector a) y).
    + exists (MkMergedNode (injector a) (insertPure eqv qrest (children a)) :: pre), n, post.
      repeat split; [|done|done].
      intros t [->|Ht]%elem_of_cons; [apply (Hpre a); by left|apply Hpre; by right].
    + destruct IHpre as (pre' & n' & post' & Heq & Hpre' & Hn' & Hrest').
      { intros t Ht. apply Hpre. by right. }
      exists (a :: pre'), n', post'. cbn in Heq. rewrite Heq.
      repeat split; [|done|done].
      intros t [->|Ht]%elem_of_cons; [apply Hpre; by left|by apply Hpre'].
Qed.

Lemma insertPure_Routed path : ∀ forest, Routed eqv path (insertPure eqv path forest).
Proof.
  induction path as [|x rest IH]; intros forest; [done|].
  cbn [insertPure].
  induction forest as [|a forest IHforest]; cbn.
  - exists [], (MkMergedNode x (insertPure eqv rest [])), [].
    repeat split; [by intros t ?%elem_of_nil|apply eqv_refl|apply IH].
  - destruct (eqv (injector a) x) eqn:Ha.
    + exists [], (MkMergedNode (injector a) (insertPure eqv rest (children a))), forest.
      repeat split; [by intros t ?%elem_of_nil|done|apply IH].
    + destruct IHforest as (pre & n & post & Heq & Hpre & Hn & Hrest).
      exists (a :: pre), n, post. cbn in Heq. rewrite Heq.
      repeat split; [|done|done].
      by intros t [->|Ht]%elem_of_cons; [|apply Hpre].
Qed.

Lemma Routed_fixed path : ∀ forest,
  Routed eqv path forest → insertPure eqv path forest = forest.
Proof.
  induction path as [|x rest IH]; intros forest; [done|].
  intros (pre & n & post & -> & Hpre & Hn & Hrest). cbn [insertPure].
  induction pre as [|a pre IHpre]; cbn.
  - rewrite Hn, (IH _ Hrest). by destruct n.
  - rewrite (Hpre a) by by left. f_equal. apply IHpre.
    intros t Ht. apply Hpre. by right.
Qed.

Lemma Routed_merge path paths : ∀ forest,
  Routed eqv path forest → Routed eqv path (mergePure eqv paths forest).
Proof.
  induction paths as [|q paths IH]; intros forest Hr; [done|].
  change (mergePure eqv (q :: paths) forest)
    with (mergePure eqv paths (insertPure eqv q forest)).
  apply IH. by apply Routed_insert.
Qed.

Lemma mergePure_Routed path paths : ∀ forest,
  path ∈ paths → Routed eqv path (mergePure eqv paths forest).
Proof.
  induction paths as [|q paths IH]; intros forest Hin; [by apply elem_of_nil in Hin|].
  change (mergePure eqv (q :: paths) forest)
    with (mergePure eqv paths (insertPure eqv q forest)).
  apply elem_of_cons in Hin as [->|Hin].
  - apply Routed_merge, insertPure_Routed.
  - by apply IH.
Qed.

Lemma mergePure_again paths tree :
  Forall (λ q, Routed eqv q tree) paths → mergePure eqv paths tree = tree.
Proof.
  induction 1 as [|q paths Hq _ IH]; [done|].
  change (mergePure eqv (q :: paths) tree)
    with (mergePure eqv paths (insertPure eqv q tree)).
  rewrite (Routed_fixed _ _ Hq). apply IH.
Qed.

Lemma Routed_size path : ∀ forest,
  Routed eqv path forest → (length path ≤ forestSize forest)%nat.
Proof.
  induction path as [|x rest IH]; intros forest; [cbn [length]; lia|].
  intros (pre & [inj ch] & post & -> & _ & _ & Hrest). apply IH in Hrest.
  rewrite forestSize_app, forestSize_cons, treeSize_node.
  cbn [children] in Hrest. cbn [length]. lia.
Qed.

Lemma insertPure_size path : ∀ forest,
  (forestSize forest ≤ forestSize (insertPure eqv path forest)
   ≤ forestSize forest + length path)%nat.
Proof.
  induction path as [|x rest IH]; intros forest; [cbn [insertPure length]; lia|].
  cbn [insertPure length].
  induction forest as [|[inj ch] forest IHforest].
  - pose proof (IH []) as H. rewrite forestSize_cons, treeSize_node.
    change (forestSize []) with 0 in *. lia.
  - cbn [injector children]. destruct (eqv inj x).
    + pose proof (IH ch) as H. rewrite !forestSize_cons, !treeSize_node. lia.
    + rewrite !forestSize_cons. lia.
Qed.

Lemma mergePure_size paths : ∀ forest,
  (forestSize forest ≤ forestSize (mergePure eqv paths forest)
   ≤ forestSize forest + list_sum (length <$> paths))%nat.
Proof.
  induction paths as [|q paths IH]; intros forest.
  - change (mergePure eqv [] forest) with forest. lia.
  - change (mergePure eqv (q :: paths) forest)
      with (mergePure eqv paths (insertPure eqv q forest)).
    pose proof (IH (insertPure eqv q forest)). pose proof (insertPure_size q forest).
    rewrite fmap_cons.
    change (list_sum (length q :: (length <$> paths)))
      with (length q + list_sum (length <$> paths)). lia.
Qed.
End Routes.

Lemma tagPaths_app ps qs : tagPaths (ps ++ qs) = tagPaths ps ++ tagPaths qs.
Proof. unfold tagPaths. by rewrite fmap_app. Qed.

Lemma mergePure_app eqv ps qs tree :
  mergePure eqv (ps ++ qs) tree = mergePure eqv qs (mergePure eqv ps tree).
Proof. unfold mergePure. by rewrite foldl_app. Qed.

Lemma tagPaths_elem np ps :
  np ∈ ps → (tagWithNode np.1 <$> np.2) ∈ tagPaths ps.
Proof. intros Hin. unfold tagPaths. apply list_elem_of_fmap. by exists np. Qed.

Lemma tagWithNode_ids nd (path : list SerializedInjector) :
  id <$> (tagWithNode nd <$> path) = si_id <$> path.
Proof. rewrite <-list_fmap_compose. by apply list_fmap_ext. Qed.

(** X1: merging again paths that were merged before, in any order and any
    number of times, returns the tree as it was, in both modes. *)
Theorem merge_again_unchanged (collapse : bool)
    (injectorPaths again : list (NodeRef * list SerializedInjector))
    (Hagain : again ⊆ injectorPaths) :
  mergePaths collapse (injectorPaths ++ again) [] = mergePaths collapse injectorPaths [].
Proof.
  rewrite !mergePaths_total, tagPaths_app, mergePure_app. f_equal.
  apply mergePure_again. apply Forall_forall. intros q Hq.
  unfold tagPaths in Hq. apply list_elem_of_fmap in Hq as (np & -> & Hnp).
  apply mergePure_Routed; [apply equalNodeSpec_refl|].
  by apply tagPaths_elem, Hagain.
Qed.

Lemma merge_again_unchanged_witness :
  mergePaths true (c2_order2 ++ [c2_pathF; c2_pathC; c2_pathF]) []
  = mergePaths true c2_order2 [].
Proof.
  apply (merge_again_unchanged true c2_order2 [c2_pathF; c2_pathC; c2_pathF]).
  intros np Hnp. unfold c2_order2.
  repeat (apply elem_of_cons in Hnp as [->|Hnp]); [set_solver..|by apply elem_of_nil in Hnp].
Defined.

Lemma HereditaryForest_elem Q forest t :
  HereditaryForest Q forest → t ∈ forest → Hereditary Q t.
Proof. intros [_ Hf] Hin. by eapply Forall_forall in Hf. Qed.

Lemma Tagged_elem forest t :
  HereditaryForest (Forall Tagged) forest → t ∈ forest → Tagged (injector t).
Proof.
  intros [Hq _] Hin. eapply Forall_forall in Hq; [done|].
  apply list_elem_of_fmap. eauto.
Qed.

Lemma Routed_Found collapse path : ∀ forest,
  HereditaryForest (Forall Tagged) forest → Forall Tagged path →
  Routed (equalNodeSpec collapse) path forest → Found collapse path forest.
Proof.
  induction path as [|x rest IH]; intros forest Hf Hp; [done|].
  apply Forall_cons in Hp as [Hx Hp].
  intros (pre & n & post & -> & Hpre & Hn & Hrest).
  exists pre, n, post. split; [done|].
  assert (Hin : n ∈ pre ++ n :: post) by (apply elem_of_app; right; by left).
  split; [|split].
  - intros t Ht. rewrite equalNode_tagged; [by rewrite Hpre| |done].
    apply (Tagged_elem _ _ Hf). apply elem_of_app. by left.
  - rewrite equalNode_tagged; [by rewrite Hn|by apply (Tagged_elem _ _ Hf)|done].
  - apply IH; [|done|done].
    by apply HereditaryForest_children, (HereditaryForest_elem _ _ _ Hf).
Qed.

Lemma mergePure_Tagged collapse injectorPaths :
  HereditaryForest (Forall Tagged)
    (mergePure (equalNodeSpec collapse) (tagPaths injectorPaths) []).
Proof.
  apply (mergePure_hereditary _ _ Tagged).
  - done.
  - apply Tagged_snoc.
  - apply tagPaths_Tagged.
  - by apply HereditaryForest_nil.
Qed.

(** X2: every merged path is in the final tree: walking it from the top,
    the scan of each level stops at a node on which [equalNode] is true
    for the record, and the walk goes on in the children of that node.  So
    the tree has at least as many nodes as the longest path has records;
    and it has no more nodes than the paths have records altogether. *)
Theorem merge_keeps_paths (collapse : bool)
    (injectorPaths : list (NodeRef * list SerializedInjector)) :
  ∃ tree,
    mergePaths collapse injectorPaths [] = Some tree ∧
    (∀ np, np ∈ injectorPaths →
       Found collapse (tagWithNode np.1 <$> np.2) tree ∧
       (length np.2 ≤ forestSize tree)%nat) ∧
    (forestSize tree ≤ list_sum ((λ np, length np.2) <$> injectorPaths))%nat.
Proof.
  eexists. split; [apply mergePaths_total|]. split.
  - intros np Hnp.
    assert (Hr : Routed (equalNodeSpec collapse) (tagWithNode np.1 <$> np.2)
                   (mergePure (equalNodeSpec collapse) (tagPaths injectorPaths) [])).
    { apply mergePure_Routed; [apply equalNodeSpec_refl|by apply tagPaths_elem]. }
    split.
    + apply Routed_Found; [apply mergePure_Tagged| |done].
      apply Forall_fmap, Forall_forall. intros inj _. apply tagWithNode_Tagged.
    + apply Routed_size in Hr. by rewrite length_fmap in Hr.
  - pose proof (mergePure_size (equalNodeSpec collapse) (tagPaths injectorPaths) []) as [_ H].
    change (forestSize []) with 0 in H.
    replace (length <$> tagPaths injectorPaths)
      with ((λ np : NodeRef * list SerializedInjector, length np.2) <$> injectorPaths) in H; [lia|].
    unfold tagPaths. rewrite <-list_fmap_compose. apply list_fmap_ext.
    intros i np _. cbn. by rewrite length_fmap.
Qed.

(** X3: with collapse mode off the merged tree is the trie of the id
    sequences of the paths: it has a branch with the ids [ks], from the
    top down, exactly when [ks] is empty or starts the id sequence of one
    of the paths; and no two siblings have the same id. *)
Theorem merge_off_is_trie (injectorPaths : list (NodeRef * list SerializedInjector)) :
  ∃ tree,
    mergePaths false injectorPaths [] = Some tree ∧
    HereditaryForest DistinctIds tree ∧
    ∀ ks, hasBranch ks tree ↔
      ks = [] ∨ ∃ np, np ∈ injectorPaths ∧ ks `prefix_of` (si_id <$> np.2).
Proof.
  eexists. split; [apply mergePaths_total|]. split.
  - apply mergePure_DistinctIds, equalNodeSpec_off.
  - intros ks. rewrite mergePure_branch by apply equalNodeSpec_off.
    rewrite hasBranch_nil_forest. split.
    + intros [?|(p & Hp & Hpre)]; [by left|right].
      unfold tagPaths in Hp. apply list_elem_of_fmap in Hp as (np & -> & Hnp).
      exists np. split; [done|]. by rewrite <-(tagWithNode_ids np.1).
    + intros [?|(np & Hnp & Hpre)]; [by left|right].
      exists (tagWithNode np.1 <$> np.2). split; [by apply tagPaths_elem|].
      by rewrite tagWithNode_ids.
Qed.

Lemma merge_size_lower collapse injectorPaths np :
  np ∈ injectorPaths →
  (length np.2 ≤ forestSize (mergePure (equalNodeSpec collapse) (tagPaths injectorPaths) []))%nat.
Proof.
  intros Hnp.
  assert (Hr : Routed (equalNodeSpec collapse) (tagWithNode np.1 <$> np.2)
                 (mergePure (equalNodeSpec collapse) (tagPaths injectorPaths) [])).
  { apply mergePure_Routed; [apply equalNodeSpec_refl|by apply tagPaths_elem]. }
  apply Routed_size in Hr. by rewrite length_fmap in Hr.
Qed.

(** ** The top level of the merged tree *)

Lemma equalNodeSpec_same_id collapse a b :
  id a = id b → equalNodeSpec collapse a b = true.
Proof. intros H. unfold equalNodeSpec. by rewrite bool_decide_eq_true_2. Qed.

Lemma insertPure_one_root collapse k path tree :
  (∀ x, head path = Some x → id x = k) →
  ((length tree ≤ 1)%nat ∧ ∀ t, t ∈ tree → id (injector t) = k) →
  let tree' := insertPure (equalNodeSpec collapse) path tree in
  (length tree' ≤ 1)%nat ∧ ∀ t, t ∈ tree' → id (injector t) = k.
Proof.
  intros Hhead [Hlen Hid]. destruct path as [|x rest]; [done|].
  specialize (Hhead x eq_refl). cbn.
  destruct tree as [|root [|? ?]]; cbn in *; [| |lia].
  - split; [lia|]. by intros t ->%list_elem_of_singleton.
  - rewrite equalNodeSpec_same_id by (rewrite Hhead; apply Hid; by left).
    split; [done|]. intros t ->%list_elem_of_singleton. cbn. apply Hid. by left.
Qed.

(** X4: when every path that has a first record starts with the same id,
    the merged tree has at most one root, with that id, in both modes; it
    has one as soon as one of the paths is not empty. *)
Theorem merge_single_root (collapse : bool) (k : string)
    (injectorPaths : list (NodeRef * list SerializedInjector))
    (Hroot : ∀ np r, np ∈ injectorPaths → head np.2 = Some r → si_id r = k) :
  ∃ tree,
    mergePaths collapse injectorPaths [] = Some tree ∧
    (length tree ≤ 1)%nat ∧
    (∀ t, t ∈ tree → id (injector t) = k) ∧
    (tree = [] ↔ ∀ np, np ∈ injectorPaths → np.2 = []).
Proof.
  eexists. split; [apply mergePaths_total|].
  assert (Htop : ∀ tree,
    ((length tree ≤ 1)%nat ∧ ∀ t, t ∈ tree → id (injector t) = k) →
    let tree' := mergePure (equalNodeSpec collapse) (tagPaths injectorPaths) tree in
    (length tree' ≤ 1)%nat ∧ ∀ t, t ∈ tree' → id (injector t) = k).
  { induction injectorPaths as [|np rest IH]; intros tree Htree; [done|].
    cbn zeta.
    change (mergePure (equalNodeSpec collapse) (tagPaths (np :: rest)) tree)
      with (mergePure (equalNodeSpec collapse) (tagPaths rest)
              (insertPure (equalNodeSpec collapse) (tagWithNode np.1 <$> np.2) tree)).
    apply IH; [intros np' r Hin; apply Hroot; by right|].
    apply insertPure_one_root; [|done].
    intros x Hx. destruct (np.2) as [|r path] eqn:Hp; [done|].
    injection Hx as <-. cbn. apply (Hroot np r); [by left|by rewrite Hp]. }
  destruct (Htop []) as [Hlen Hid]; [split; [cbn; lia|by intros t ?%elem_of_nil]|].
  split; [done|]. split; [done|]. split.
  - intros Hnil np Hnp.
    pose proof (merge_size_lower collapse injectorPaths np Hnp) as Hsz.
    rewrite Hnil in Hsz. change (forestSize []) with 0 in Hsz.
    destruct (np.2); [done|cbn in Hsz; lia].
  - intros Hall.
    pose proof (mergePure_size (equalNodeSpec collapse) (tagPaths injectorPaths) []) as [_ H].
    change (forestSize []) with 0 in H.
    assert (list_sum (length <$> tagPaths injectorPaths) = 0) as Hz.
    { clear -Hall. induction injectorPaths as [|np rest IH]; [done|].
      cbn. rewrite length_fmap, (Hall np) by by left. cbn. apply IH.
      intros np' ?. apply Hall. by right. }
    rewrite Hz in H.
    destruct (mergePure _ _ _) as [|[inj ch] ?]; [done|].
    rewrite forestSize_cons, treeSize_node in H. lia.
Qed.

Lemma merge_single_root_witness :
  ∃ tree, mergePaths true c2_order1 [] = Some tree ∧ (length tree ≤ 1)%nat.
Proof.
  destruct (merge_single_root true "m" c2_order1) as (tree & Hm & Hlen & _).
  - intros np r Hnp. unfold c2_order1 in Hnp.
    repeat (apply elem_of_cons in Hnp as [->|Hnp]); [by intros [= <-]..|by apply elem_of_nil in Hnp].
  - by exists tree.
Defined.

(** X5: [injectorTreeReloaded] raises exactly when the forest is empty,
    reading [resolutionPath] of the missing first root; otherwise it
    returns a tree, built from the first root alone: the other roots of
    the forest are not looked at. *)
Theorem injectorTreeReloaded_first_root (collapse : bool)
    (forestWithInjectorPaths : list DevToolsNode) :
  (injectorTreeReloaded collapse forestWithInjectorPaths = None ↔
     forestWithInjectorPaths = []) ∧
  (∀ root rest,
     forestWithInjectorPaths = root :: rest →
     injectorTreeReloaded collapse forestWithInjectorPaths
     = mergePaths collapse (grabInjectorPaths root) [] ∧
     injectorTreeReloaded collapse forestWithInjectorPaths
     = injectorTreeReloaded collapse [root]).
Proof.
  split.
  - destruct forestWithInjectorPaths as [|root rest]; [done|].
    unfold injectorTreeReloaded. cbn. by rewrite mergePaths_total.
  - by intros root rest ->.
Qed.


(** ** The serialized forest *)

Set Warnings "-clear-no-such-hyp".

Section Forest.
Context (getDirectiveId : ObjRef → option nat).
Context (getInjectorResolutionPath : option ObjRef → option (list RawInjector)).
Context (getDirectives : ObjRef → list ObjRef).
Context (getComponent : ObjRef → option ObjRef).
Context (isComment : ObjRef → bool).
Context (constructorName : ObjRef → string).
Context (ownerName : ObjRef → option string).
Context (randomUUID : nat → string).

Local Abbreviation serializeInjector' :=
  (serializeInjector getDirectives getComponent isComment constructorName
     ownerName randomUUID).
Local Abbreviation serializePath' :=
  (serializePath getDirectives getComponent isComment constructorName
     ownerName randomUUID).
Local Abbreviation prepareNode' :=
  (prepareNode getDirectiveId getInjectorResolutionPath getDirectives
     getComponent isComment constructorName ownerName randomUUID).
Local Abbreviation prepareForest' :=
  (prepareForestForSerialization getDirectiveId getInjectorResolutionPath
     getDirectives getComponent isComment constructorName ownerName randomUUID).
Local Abbreviation visitedInjectors' := (visitedInjectors getInjectorResolutionPath).
Local Abbreviation Mirrors' := (Mirrors getInjectorResolutionPath).

Lemma serializeInjector_type inj st : si_type (serializeInjector' inj st).2 = raw_type inj.
Proof.
  unfold serializeInjector.
  destruct (assignId randomUUID (raw_owner inj) st) as [st1 uuid]. by case_bool_decide.
Qed.

Lemma serializePath_types path : ∀ st,
  Forall2 (λ r s, si_type s = raw_type r) path (serializePath' path st).2.
Proof.
  induction path as [|inj rest IH]; intros st; [constructor|].
  cbn [serializePath]. pose proof (serializeInjector_type inj st) as Hty.
  destruct (serializeInjector' inj st) as [st1 s]. specialize (IH st1).
  destruct (serializePath' rest st1) as [st2 ss]. by constructor.
Qed.

Lemma mapWithState_Forall2 {A B S : Type} (f : A → S → option (S * B))
    (P : A → B → Prop) xs :
  Forall (λ x, ∀ st st' y, f x st = Some (st', y) → P x y) xs →
  ∀ st st' ys, mapWithState f xs st = Some (st', ys) → Forall2 P xs ys.
Proof.
  induction 1 as [|x xs Hx _ IH]; intros st st' ys.
  - intros [= <- <-]. constructor.
  - rewrite mapWithState_cons.
    destruct (f x st) as [[st1 y]|] eqn:Hf; [|done]. cbn.
    destruct (mapWithState f xs st1) as [[st2 ys']|] eqn:Hmap; [|done]. cbn.
    intros [= <- <-]. constructor; eauto.
Qed.

Lemma prepareNode_mirrors withPath n : ∀ st st' out,
  prepareNode' withPath n st = Some (st', out) → Mirrors' withPath n out.
Proof.
  induction n as [position element component directives nativeElement children IH]
    using IndexedNode_tree_ind.
  intros st st' out. cbn [prepareNode].
  destruct (mapWithState (prepareNode' withPath) children st) as [[st1 outs]|] eqn:Hch;
    [|done].
  apply (mapWithState_Forall2 _ (Mirrors' withPath) _ IH) in Hch. cbn.
  destruct withPath.
  - destruct (getInjectorResolutionPath nativeElement) as [path|] eqn:Hpath; [|done]. cbn.
    pose proof (serializePath_types path st1) as Hty.
    destruct (serializePath' path st1) as [st2 path'].
    intros [= <- <-]. constructor; [by destruct component| |done|by exists path].
    rewrite <-!list_fmap_compose. by apply list_fmap_ext.
  - intros [= <- <-]. constructor; [by destruct component| |done|done].
    rewrite <-!list_fmap_compose. by apply list_fmap_ext.
Qed.

(** Without resolution paths no node touches the state and none raises. *)
Lemma prepareNode_plain n : ∀ st, ∃ out, prepareNode' false n st = Some (st, out).
Proof.
  induction n as [position element component directives nativeElement children IH]
    using IndexedNode_tree_ind.
  intros st. cbn [prepareNode].
  assert (∃ outs, mapWithState (prepareNode' false) children st = Some (st, outs))
    as [outs ->].
  { induction IH as [|c children Hc _ IHch]; [by eexists|].
    rewrite mapWithState_cons. destruct (Hc st) as [out ->]. cbn.
    destruct IHch as [outs ->]. cbn. by eexists. }
  cbn. by eexists.
Qed.

(** X6: the serialized forest mirrors the indexed forest node by node,
    with or without resolution paths: positions, element, component and
    directive names are kept, children stay in order, and a resolution
    path has one record of the same type for each raw record.  Without
    resolution paths the call always returns and leaves both maps and the
    count of drawn ids as they were. *)
Theorem prepareForest_mirrors (roots : list IndexedNode) (st : State) :
  (∀ withPath st' out,
     prepareForest' withPath roots st = Some (st', out) →
     Forall2 (Mirrors' withPath) roots out) ∧
  (∃ out, prepareForest' false roots st = Some (st, out)).
Proof.
  split.
  - intros withPath st' out. unfold prepareForestForSerialization.
    apply mapWithState_Forall2. apply Forall_forall. intros n _.
    apply prepareNode_mirrors.
  - unfold prepareForestForSerialization. revert st.
    induction roots as [|n roots IH]; intros st; [by eexists|].
    rewrite mapWithState_cons. destruct (prepareNode_plain n st) as [out ->]. cbn.
    destruct (IH st) as [outs ->]. cbn. by eexists.
Qed.

Lemma mapWithState_None {A B S : Type} (f : A → S → option (S * B))
    (Bad : A → Prop) xs :
  Forall (λ x, ∀ st, f x st = None ↔ Bad x) xs →
  ∀ st, mapWithState f xs st = None ↔ Exists Bad xs.
Proof.
  induction 1 as [|x xs Hx _ IH]; intros st.
  - cbn. split; [done|]. by intros ?%Exists_nil.
  - rewrite mapWithState_cons, Exists_cons.
    destruct (f x st) as [[st1 y]|] eqn:Hf; cbn.
    + destruct (mapWithState f xs st1) as [[st2 ys]|] eqn:Hmap; cbn.
      * split; [done|]. intros [Hb|Hb].
        -- apply (proj2 (Hx st)) in Hb. congruence.
        -- apply (proj2 (IH st1)) in Hb. congruence.
      * split; [|done]. intros _. right. by apply (proj1 (IH st1)).
    + split; [|done]. intros _. left. by apply (proj1 (Hx st)).
Qed.

Lemma prepareNode_raises n : ∀ st,
  prepareNode' true n st = None ↔
  Exists (λ m, getInjectorResolutionPath (in_nativeElement m) = None) (nodesOf n).
Proof.
  induction n as [position element component directives nativeElement children IH]
    using IndexedNode_tree_ind.
  intros st. cbn [prepareNode nodesOf]. rewrite Exists_cons. cbn [in_nativeElement].
  assert (Hch : ∀ st, mapWithState (prepareNode' true) children st = None ↔
                      Exists (λ m, getInjectorResolutionPath (in_nativeElement m) = None)
                        (flat_map nodesOf children)).
  { intros st0.
    rewrite (mapWithState_None _
      (λ c, Exists (λ m, getInjectorResolutionPath (in_nativeElement m) = None) (nodesOf c))
      children IH st0).
    clear. induction children as [|c children IHc]; cbn.
    - split; by intros ?%Exists_nil.
    - rewrite Exists_cons, Exists_app, IHc. tauto. }
  destruct (mapWithState (prepareNode' true) children st) as [[st1 outs]|] eqn:Hmap; cbn.
  - destruct (getInjectorResolutionPath nativeElement) as [path|] eqn:Hpath; cbn.
    + destruct (serializePath' path st1). split; [done|].
      intros [?|Hb]; [done|]. apply (proj2 (Hch st)) in Hb. congruence.
    + split; [by left|done].
  - split; [|done]. intros _. right. by apply (proj1 (Hch st)).
Qed.

(** X7: with resolution paths the serialization raises exactly when the
    page has no resolution path ([null]) for the native element of some
    node of the forest, at any depth: one such node loses the whole
    forest. *)
Theorem prepareForest_raises (roots : list IndexedNode) (st : State) :
  prepareForest' true roots st = None ↔
  ∃ n, n ∈ flat_map nodesOf roots ∧
       getInjectorResolutionPath (in_nativeElement n) = None.
Proof.
  unfold prepareForestForSerialization.
  rewrite (mapWithState_None _
    (λ c, Exists (λ m, getInjectorResolutionPath (in_nativeElement m) = None) (nodesOf c))
    roots); [|apply Forall_forall; intros n _; apply prepareNode_raises].
  rewrite <-Exists_exists.
  induction roots as [|c roots IHc]; cbn.
  - split; by intros ?%Exists_nil.
  - rewrite Exists_cons, Exists_app, IHc. tauto.
Qed.

(** A relation between the state before, the raw records, the records
    emitted and the state after, that holds of one loop body and composes,
    holds of the whole pass. *)
Section Pass.
Context (R : State → list RawInjector → list SerializedInjector → State → Prop).
Hypothesis R_nil : ∀ st, R st [] [] st.
Hypothesis R_app : ∀ st st1 st2 raws1 sers1 raws2 sers2,
  R st raws1 sers1 st1 → R st1 raws2 sers2 st2 →
  R st (raws1 ++ raws2) (sers1 ++ sers2) st2.
Hypothesis R_one : ∀ inj st,
  R st [inj] [(serializeInjector' inj st).2] (serializeInjector' inj st).1.

Lemma serializePath_rel path : ∀ st,
  R st path (serializePath' path st).2 (serializePath' path st).1.
Proof.
  induction path as [|inj rest IH]; intros st; [apply R_nil|].
  cbn [serializePath]. pose proof (R_one inj st) as H1.
  destruct (serializeInjector' inj st) as [st1 s].
  specialize (IH st1). destruct (serializePath' rest st1) as [st2 ss].
  apply (R_app st st1 st2 [inj] [s] rest ss H1 IH).
Qed.

Lemma mapWithState_rel {A B : Type} (f : A → State → option (State * B))
    (V : A → list RawInjector) (E : B → list SerializedInjector) xs :
  Forall (λ x, ∀ st st' y, f x st = Some (st', y) → R st (V x) (E y) st') xs →
  ∀ st st' ys, mapWithState f xs st = Some (st', ys) →
    R st (flat_map V xs) (flat_map E ys) st'.
Proof.
  induction 1 as [|x xs Hx _ IH]; intros st st' ys.
  - intros [= <- <-]. apply R_nil.
  - rewrite mapWithState_cons.
    destruct (f x st) as [[st1 y]|] eqn:Hf; [|done]. cbn.
    destruct (mapWithState f xs st1) as [[st2 ys']|] eqn:Hmap; [|done]. cbn.
    intros [= <- <-]. cbn. apply (R_app st st1 st2); eauto.
Qed.

Lemma prepareNode_rel n : ∀ st st' out,
  prepareNode' true n st = Some (st', out) →
  R st (visitedInjectors' n) (emittedInjectors out) st'.
Proof.
  induction n as [position element component directives nativeElement children IH]
    using IndexedNode_tree_ind.
  intros st st' out. cbn [prepareNode visitedInjectors].
  destruct (mapWithState (prepareNode' true) children st) as [[st1 outs]|] eqn:Hch;
    [|done].
  apply (mapWithState_rel _ visitedInjectors' emittedInjectors _ IH) in Hch.
  cbn. destruct (getInjectorResolutionPath nativeElement) as [path|]; [|done]. cbn.
  pose proof (serializePath_rel path st1) as Hpath.
  destruct (serializePath' path st1) as [st2 path'].
  intros [= <- <-]. cbn. by eapply R_app.
Qed.

Lemma prepareForest_rel roots st st' out :
  prepareForest' true roots st = Some (st', out) →
  R st (flat_map visitedInjectors' roots) (flat_map emittedInjectors out) st'.
Proof.
  apply (mapWithState_rel _ visitedInjectors' emittedInjectors).
  apply Forall_forall. intros n _. apply prepareNode_rel.
Qed.
End Pass.

Lemma prepareForest_returns roots st :
  Forall (λ n, is_Some (getInjectorResolutionPath (in_nativeElement n)))
    (flat_map nodesOf roots) →
  is_Some (prepareForest' true roots st).
Proof.
  intros Hpaths. apply not_eq_None_Some. unfold prepareForestForSerialization.
  rewrite (mapWithState_None _
    (λ c, Exists (λ m, getInjectorResolutionPath (in_nativeElement m) = None) (nodesOf c))
    roots); [|apply Forall_forall; intros n _; apply prepareNode_raises].
  intros Hbad. apply Exists_exists in Hbad as (c & Hc & Hbad).
  apply Exists_exists in Hbad as (m & Hm & Hnone).
  rewrite Forall_forall in Hpaths.
  destruct (Hpaths m) as [path Hpath]; [|congruence].
  apply list_elem_of_In, in_flat_map. exists c. by rewrite <- !list_elem_of_In.
Qed.

(** C8, amended: a serialization with resolution paths returns whenever
    every node of the forest has a resolution path, whatever the elements
    host; it emits one record for each raw record, in order, and the
    record of an element whose owner hosts no directive and no component
    has no label: its owner is undefined, which is not the empty
    string. *)
Theorem C8_empty_owner_set (roots : list IndexedNode) (st : State)
    (Hpaths : Forall (λ n, is_Some (getInjectorResolutionPath (in_nativeElement n)))
                (flat_map nodesOf roots)) :
  ∃ st' out,
    prepareForest' true roots st = Some (st', out) ∧
    Forall2 (λ inj s,
               raw_type inj = "Element" →
               getDirectives (raw_owner inj) = [] →
               isComment (raw_owner inj) = true ∨ getComponent (raw_owner inj) = None →
               si_owner s = None ∧ si_owner s ≠ Some "" ∧ si_type s = "Element")
      (flat_map visitedInjectors' roots) (flat_map emittedInjectors out).
Proof.
  destruct (prepareForest_returns roots st Hpaths) as [[st' out] Hrun].
  exists st', out. split; [exact Hrun|].
  apply (prepareForest_rel (λ _ raws sers _,
    Forall2 (λ inj s,
               raw_type inj = "Element" →
               getDirectives (raw_owner inj) = [] →
               isComment (raw_owner inj) = true ∨ getComponent (raw_owner inj) = None →
               si_owner s = None ∧ si_owner s ≠ Some "" ∧ si_type s = "Element")
      raws sers)) with (st := st) (st' := st'); [| | |exact Hrun].
  - intros _. constructor.
  - intros _ _ _ raws1 sers1 raws2 sers2 H1 H2. by apply Forall2_app.
  - intros inj st0. constructor; [|constructor]. intros Htype Hdirs Hcomp.
    destruct (serializeInjector_no_owner getDirectives getComponent isComment
                constructorName ownerName randomUUID inj st0 Htype Hdirs Hcomp)
      as (st1 & s & -> & Hown & Hty & _).
    cbn. rewrite Hown. by repeat split.
Qed.

Lemma assignId_calls owner st :
  let st' := (assignId randomUUID owner st).1 in
  (uuidCalls st' + size (injectorMap st) = uuidCalls st + size (injectorMap st'))%nat ∧
  dom (injectorMap st') = dom (injectorMap st) ∪ {[owner]}.
Proof.
  cbn zeta. unfold assignId. destruct (injectorMap st !! owner) as [u|] eqn:Hm; cbn.
  - split; [lia|]. apply elem_of_dom_2 in Hm. set_solver.
  - rewrite map_size_insert_None by done. split; [lia|].
    rewrite dom_insert_L. set_solver.
Qed.

(** X8: a rebuild request draws one id for each distinct owner it meets
    and no other: when it returns, the number of ids drawn during the pass
    is the number of entries of the identity map, whose keys are the
    owners of the raw records visited. *)
Theorem rebuild_draws_one_id_per_owner (forest : list IndexedNode) (st st' : State)
    (out : list SerializableComponentTreeNode)
    (Hrun : getLatestInjectorGraphCallback getDirectiveId getInjectorResolutionPath
              getDirectives getComponent isComment constructorName ownerName
              randomUUID forest st = Some (st', out)) :
  uuidCalls st' = (uuidCalls st + size (injectorMap st'))%nat ∧
  dom (injectorMap st')
  = list_to_set (raw_owner <$> flat_map visitedInjectors' forest) ∧
  size (injectorMap st')
  = size (list_to_set (raw_owner <$> flat_map visitedInjectors' forest) : gset ObjRef).
Proof.
  unfold getLatestInjectorGraphCallback in Hrun.
  apply (prepareForest_rel (λ st raws sers st',
    (uuidCalls st' + size (injectorMap st) = uuidCalls st + size (injectorMap st'))%nat ∧
    dom (injectorMap st') = dom (injectorMap st) ∪ list_to_set (raw_owner <$> raws)))
    in Hrun.
  - destruct Hrun as [Hcalls Hdom]. cbn in Hcalls, Hdom.
    rewrite map_size_empty in Hcalls. rewrite dom_empty_L, (left_id_L ∅ (∪)) in Hdom.
    split; [lia|]. split; [done|]. by rewrite <-Hdom, size_dom.
  - intros st0. split; [lia|]. cbn. set_solver.
  - intros st0 st1 st2 raws1 sers1 raws2 sers2 [Hc1 Hd1] [Hc2 Hd2].
    split; [lia|]. rewrite Hd2, Hd1, fmap_app, list_to_set_app_L. set_solver.
  - intros inj st0.
    destruct (serializeInjector_id getDirectives getComponent isComment
                constructorName ownerName randomUUID inj st0) as (_ & -> & ->).
    destruct (assignId_calls (raw_owner inj) st0) as [Hc Hd].
    split; [done|]. rewrite Hd. cbn. set_solver.
Qed.

Lemma instancesAfter_app table raws1 sers1 raws2 sers2 :
  length raws1 = length sers1 →
  instancesAfter table (raws1 ++ raws2) (sers1 ++ sers2)
  = instancesAfter (instancesAfter table raws1 sers1) raws2 sers2.
Proof.
  revert table sers1. induction raws1 as [|r raws1 IH]; intros table [|s sers1] Hlen;
    try done.
  cbn. apply IH. by injection Hlen.
Qed.

Lemma instancesAfter_keeps table raws : ∀ sers k,
  is_Some (table !! k) → is_Some (instancesAfter table raws sers !! k).
Proof.
  revert table. induction raws as [|r raws IH]; intros table [|s sers] k Hk; try done.
  cbn. apply IH. case_bool_decide; [done|].
  rewrite lookup_insert. by case_decide.
Qed.

Lemma instancesAfter_bound raws : ∀ table sers i r s,
  raws !! i = Some r → sers !! i = Some s → raw_type r ≠ "Element" →
  is_Some (instancesAfter table raws sers !! si_id s).
Proof.
  induction raws as [|r0 raws IH]; intros table [|s0 sers] i r s Hr Hs Hty; try done.
  destruct i as [|i]; cbn in *.
  - simplify_eq. apply instancesAfter_keeps.
    rewrite bool_decide_eq_false_2 by done. by rewrite lookup_insert_eq.
  - by eapply IH.
Qed.

Lemma instancesAfter_other raws : ∀ table sers k,
  (∀ i r s, raws !! i = Some r → sers !! i = Some s →
            raw_type r ≠ "Element" → si_id s ≠ k) →
  instancesAfter table raws sers !! k = table !! k.
Proof.
  induction raws as [|r0 raws IH]; intros table [|s0 sers] k Hk; try done.
  cbn. rewrite IH; [|intros i r s; apply (Hk (S i))].
  case_bool_decide as Hty; [done|].
  rewrite lookup_insert_ne; [done|]. by apply (Hk 0 r0 s0).
Qed.

(** X9: when a serialization with resolution paths returns, the instance
    table is the table it started from, updated in visiting order with the
    instance of every record that is no element record, under the id that
    record was given.  So the id of every such emitted record is bound in
    the table, and the entries under other ids are as they were; nothing
    is ever removed. *)
Theorem prepareForest_instances (roots : list IndexedNode) (st st' : State)
    (out : list SerializableComponentTreeNode)
    (Hrun : prepareForest' true roots st = Some (st', out)) :
  let raws := flat_map visitedInjectors' roots in
  let sers := flat_map emittedInjectors out in
  length raws = length sers ∧
  containerInjectorIdToInstance st'
  = instancesAfter (containerInjectorIdToInstance st) raws sers ∧
  (∀ i r s, raws !! i = Some r → sers !! i = Some s → raw_type r ≠ "Element" →
     is_Some (containerInjectorIdToInstance st' !! si_id s)) ∧
  (∀ k, is_Some (containerInjectorIdToInstance st !! k) →
     is_Some (containerInjectorIdToInstance st' !! k)) ∧
  (∀ k, (∀ i r s, raws !! i = Some r → sers !! i = Some s →
                  raw_type r ≠ "Element" → si_id s ≠ k) →
     containerInjectorIdToInstance st' !! k = containerInjectorIdToInstance st !! k).
Proof.
  cbn zeta.
  apply (prepareForest_rel (λ st raws sers st',
    length raws = length sers ∧
    containerInjectorIdToInstance st'
    = instancesAfter (containerInjectorIdToInstance st) raws sers)) in Hrun.
  - destruct Hrun as [Hlen ->]. split; [done|]. split; [done|].
    split; [|split].
    + intros i r s. apply instancesAfter_bound.
    + intros k. apply instancesAfter_keeps.
    + intros k. apply instancesAfter_other.
  - done.
  - intros st0 st1 st2 raws1 sers1 raws2 sers2 [Hl1 Ht1] [Hl2 Ht2].
    split; [rewrite !length_app; lia|].
    by rewrite instancesAfter_app, <-Ht1, <-Ht2.
  - intros inj st0. split; [done|]. cbn.
    pose proof (assignId_container randomUUID (raw_owner inj) st0) as Hc.
    unfold serializeInjector.
    destruct (assignId randomUUID (raw_owner inj) st0) as [st1 uuid].
    case_bool_decide; cbn in *; by rewrite Hc.
Qed.
End Forest.

Lemma C8_witness :
  ∃ st' out,
    prepareForestForSerialization ex_getDirectiveId ex_getInjectorResolutionPath
      ex_getDirectives ex_getComponent ex_isComment ex_constructorName ex_ownerName
      ex_randomUUID true ex_forest ex_state = Some (st', out) ∧
    si_owner <$> flat_map emittedInjectors out
    = [None; Some "AppModule";
       Some "TodoComponent[TooltipDirective, SampleDirective]"; Some "AppModule"].
Proof.
  destruct (C8_empty_owner_set ex_getDirectiveId ex_getInjectorResolutionPath
              ex_getDirectives ex_getComponent ex_isComment ex_constructorName
              ex_ownerName ex_randomUUID ex_forest ex_state)
    as (st' & out & Hrun & _).
  - cbn. repeat (constructor; [by eexists|]). constructor.
  - exists st', out. split; [exact Hrun|].
    vm_compute in Hrun. by injection Hrun as <- <-.
Defined.

(** C8 as stated fails: the record of a comment node that hosts nothing is
    serialized with the owner undefined, not with an empty label. *)
Lemma C8_counterexample :
  raw_type ex_comment = "Element" ∧
  ex_getDirectives (raw_owner ex_comment) = [] ∧
  ex_isComment (raw_owner ex_comment) = true ∧
  ex_getComponent (raw_owner ex_comment) = None ∧
  si_owner (serializeInjector ex_getDirectives ex_getComponent ex_isComment
              ex_constructorName ex_ownerName ex_randomUUID ex_comment ex_state).2
  ≠ Some "".
Proof. do 4 (split; [reflexivity|]). discriminate. Qed.

Lemma rebuild_draws_one_id_per_owner_witness :
  ∃ st' out,
    getLatestInjectorGraphCallback ex_getDirectiveId ex_getInjectorResolutionPath
      ex_getDirectives ex_getComponent ex_isComment ex_constructorName ex_ownerName
      ex_randomUUID ex_forest ex_state = Some (st', out) ∧
    uuidCalls st' = (uuidCalls ex_state + size (injectorMap st'))%nat.
Proof.
  eexists _, _. split; [vm_compute; reflexivity|].
  eapply (rebuild_draws_one_id_per_owner ex_getDirectiveId ex_getInjectorResolutionPath
            ex_getDirectives ex_getComponent ex_isComment ex_constructorName
            ex_ownerName ex_randomUUID ex_forest ex_state).
  vm_compute. reflexivity.
Defined.

Lemma prepareForest_instances_witness :
  ∃ st' out,
    prepareForestForSerialization ex_getDirectiveId ex_getInjectorResolutionPath
      ex_getDirectives ex_getComponent ex_isComment ex_constructorName ex_ownerName
      ex_randomUUID true ex_forest ex_state = Some (st', out) ∧
    length (flat_map (visitedInjectors ex_getInjectorResolutionPath) ex_forest)
    = length (flat_map emittedInjectors out).
Proof.
  eexists _, _. split; [vm_compute; reflexivity|].
  eapply (prepareForest_instances ex_getDirectiveId ex_getInjectorResolutionPath
            ex_getDirectives ex_getComponent ex_isComment ex_constructorName
            ex_ownerName ex_randomUUID ex_forest ex_state).
  vm_compute. reflexivity.
Defined.


(** ** Positions compose *)

Lemma queryLoop_app p : ∀ q forest n0,
  p ≠ [] →
  queryLoop (p ++ q) forest n0
  = n ← queryLoop p forest n0; queryLoop q (ctn_children n) (Some n).
Proof.
  induction p as [|i p IH]; intros q forest n0 Hp; [done|].
  cbn. destruct (arrayAt forest i) as [m|]; [|done].
  destruct p as [|j p']; [done|]. by apply IH.
Qed.

Lemma queryLoop_start position forest n0 n1 :
  position ≠ [] → queryLoop position forest n0 = queryLoop position forest n1.
Proof. destruct position; [done|]. intros _. cbn. by destruct (arrayAt forest z). Qed.

(** X10: looking up a position made of two parts, both with at least one
    index, is looking up the first part and then the second part among the
    children of the node found; it is [null] when the first part finds
    none. *)
Theorem queryDirectiveForest_app (p q : list Z) (forest : list ComponentTreeNode)
    (Hp : p ≠ []) (Hq : q ≠ []) :
  queryDirectiveForest (p ++ q) forest
  = n ← queryDirectiveForest p forest; queryDirectiveForest q (ctn_children n).
Proof.
  unfold queryDirectiveForest.
  destruct q as [|j q]; [done|]. destruct p as [|i p]; [done|].
  change (bool_decide (length ((i :: p) ++ j :: q) = 0)) with false.
  change (bool_decide (length (i :: p) = 0)) with false.
  change (bool_decide (length (j :: q) = 0)) with false. cbv iota.
  rewrite queryLoop_app by done.
  destruct (queryLoop (i :: p) forest None) as [n|]; [|done]. cbn [mbind option_bind].
  by apply queryLoop_start.
Qed.

Lemma queryDirectiveForest_app_witness :
  queryDirectiveForest ([0; 1] ++ [0])%Z ex_componentForest
  = Some (MkComponentTreeNode "app-todo" []).
Proof.
  rewrite (queryDirectiveForest_app [0; 1]%Z [0%Z] ex_componentForest); done.
Defined.


(** ** Strings *)

Lemma substring_0_app (a b : string) : String.substring 0 (String.length a) (a +:+ b) = a.
Proof.
  induction a as [|c a IH]; [by destruct b|].
  change (String c (String.substring 0 (String.length a) (a +:+ b)) = String c a).
  by f_equal.
Qed.

Lemma indexOf_char_cons (c b : Ascii.ascii) (s : string) :
  indexOf (String c "") (String b s)
  = if Ascii.ascii_dec c b then Some 0 else S <$> indexOf (String c "") s.
Proof.
  unfold indexOf. cbn. destruct (Ascii.ascii_dec c b); [by destruct s|].
  by destruct (String.index 0 (String c "") s).
Qed.

Lemma indexOf_char_app (c : Ascii.ascii) (a rest : string) :
  indexOf (String c "") a = None →
  indexOf (String c "") (a +:+ String c rest) = Some (String.length a).
Proof.
  induction a as [|b a IH]; intros Hnone.
  - change ("" +:+ String c rest) with (String c rest).
    rewrite indexOf_char_cons. by destruct (Ascii.ascii_dec c c).
  - rewrite indexOf_char_cons in Hnone.
    change (String b a +:+ String c rest) with (String b (a +:+ String c rest)).
    change (String.length (String b a)) with (S (String.length a)).
    rewrite indexOf_char_cons.
    destruct (Ascii.ascii_dec c b); [done|].
    destruct (indexOf (String c "") a); [done|]. by rewrite IH.
Qed.

Lemma indexOf_char_found (c : Ascii.ascii) : ∀ (s : string) (i : nat),
  indexOf (String c "") s = Some i →
  indexOf (String c "") (String.substring 0 i s) = None ∧
  ∃ rest, s = String.substring 0 i s +:+ String c rest.
Proof.
  induction s as [|b s IH]; intros i; [done|].
  rewrite indexOf_char_cons. destruct (Ascii.ascii_dec c b) as [->|Hne].
  - intros [= <-]. cbn. split; [done|]. by exists s.
  - destruct (indexOf (String c "") s) as [j|] eqn:Hj; [|done].
    intros [= <-]. destruct (IH j eq_refl) as [Hnone [rest Hrest]].
    change (String.substring 0 (S j) (String b s))
      with (String b (String.substring 0 j s)).
    rewrite indexOf_char_cons.
    destruct (Ascii.ascii_dec c b); [done|]. rewrite Hnone. split; [done|].
    exists rest.
    change (String b s = String b (String.substring 0 j s +:+ String c rest)).
    by f_equal.
Qed.

Lemma beforeFirst_app (c : Ascii.ascii) (a rest : string) :
  indexOf (String c "") a = None →
  beforeFirst (String c "") (a +:+ String c rest) = a.
Proof.
  intros Hnone. unfold beforeFirst. rewrite indexOf_char_app by done.
  apply substring_0_app.
Qed.

Lemma beforeFirst_none (sep s : string) : indexOf sep s = None → beforeFirst sep s = s.
Proof. intros H. unfold beforeFirst. by rewrite H. Qed.

(** ** Code units *)

Lemma utf16_examples :
  utf16 "Menu[x]" = [77; 101; 110; 117; 91; 120; 93]%N ∧
  utf16 "é件" = [233; 20214]%N ∧
  utf16 "a😀" = [97; 55357; 56832]%N ∧
  length (utf16 "组件MenuItemComponentForTestingX") = 30 ∧
  truncateLabel "组件MenuItemComponentForTestingX"
  = utf16 "组件MenuItemComponentForTestingX" ∧
  truncateLabel "😀MenuItemComponentForTesting12"
  = utf16 "😀MenuItemComponentForTesti" ++ utf16 "..." ∧
  truncateLabel "MenuItemComponentForTestin😀gABC"
  = utf16 "MenuItemComponentForTestin" ++ [55357%N] ++ utf16 "...".
Proof. by vm_compute. Qed.

Lemma truncateLabel_length label : (length (truncateLabel label) ≤ 30)%nat.
Proof.
  unfold truncateLabel. case_bool_decide as Hlen; [|by apply Nat.nlt_ge].
  rewrite length_app, length_take. change (length (utf16 "...")) with 3. lia.
Qed.

Lemma truncateLabel_short label :
  (length (utf16 label) ≤ 30)%nat → truncateLabel label = utf16 label.
Proof.
  intros H. unfold truncateLabel. rewrite bool_decide_eq_false_2; [done|].
  by apply Nat.le_ngt.
Qed.

Lemma truncateLabel_long label :
  (30 < length (utf16 label))%nat →
  truncateLabel label = take 27 (utf16 label) ++ [46; 46; 46]%N ∧
  length (truncateLabel label) = 30.
Proof.
  intros H. unfold truncateLabel. rewrite bool_decide_eq_true_2 by done.
  split; [done|]. rewrite length_app, length_take.
  change (length (utf16 "...")) with 3. lia.
Qed.

(** ** Showing the merged tree *)

(** X11: computing the text of a node of the graph raises exactly when
    the record has no owner label.  Otherwise the text is never longer
    than 30 code units: the label, up to its first square bracket for an
    element record, is shown whole when it has at most 30 code units, and
    otherwise as its first 27 code units followed by three full stops, 30
    code units in all. *)
Theorem nodeText_bounded (n : MergedNode) :
  (nodeText n = None ↔ owner (injector n) = None) ∧
  (∀ text, nodeText n = Some text → (length text ≤ 30)%nat) ∧
  (∀ label, owner (injector n) = Some label →
     let shown := if bool_decide (type (injector n) = "Element")
                  then beforeFirst "[" label else label in
     ((length (utf16 shown) ≤ 30)%nat → nodeText n = Some (utf16 shown)) ∧
     ((30 < length (utf16 shown))%nat →
      nodeText n = Some (take 27 (utf16 shown) ++ [46; 46; 46]%N) ∧
      ∀ text, nodeText n = Some text → length text = 30)).
Proof.
  unfold nodeText. split; [|split].
  - case_bool_decide; destruct (owner (injector n)); cbn; by split.
  - intros text. case_bool_decide; destruct (owner (injector n)); cbn; try done;
      intros [= <-]; apply truncateLabel_length.
  - intros label ->. cbn zeta. case_bool_decide; cbn; (split; [intros Hlen|intros Hlen]).
    + by rewrite truncateLabel_short.
    + destruct (truncateLabel_long _ Hlen) as [Heq Hlength].
      split; [by rewrite Heq|]. by intros text [= <-].
    + by rewrite truncateLabel_short.
    + destruct (truncateLabel_long _ Hlen) as [Heq Hlength].
      split; [by rewrite Heq|]. by intros text [= <-].
Qed.

Section ElementText.
Context (getDirectives : ObjRef → list ObjRef).
Context (getComponent : ObjRef → option ObjRef).
Context (isComment : ObjRef → bool).
Context (constructorName : ObjRef → string).
Context (ownerName : ObjRef → option string).
Context (randomUUID : nat → string).

Lemma element_text_of_owner (inj : RawInjector) (st : State) (nd : NodeRef)
    (below : list MergedNode) :
  raw_type inj = "Element" →
  nodeText (MkMergedNode
    (tagWithNode nd (serializeInjector getDirectives getComponent isComment
                       constructorName ownerName randomUUID inj st).2) below)
  = label ← ownerLabel (constructorName <$>
               ownerDirectives getDirectives getComponent isComment (raw_owner inj));
    Some (truncateLabel (beforeFirst "[" label)).
Proof.
  intros Htype.
  pose proof (serializeInjector_element getDirectives getComponent isComment
                constructorName ownerName randomUUID inj st Htype) as Hown.
  pose proof (serializeInjector_type getDirectives getComponent isComment
                constructorName ownerName randomUUID inj st) as Hty.
  rewrite Htype in Hty. unfold nodeText. cbn [injector tagWithNode type owner].
  by rewrite Hty, Hown, bool_decide_eq_true_2.
Qed.

Lemma beforeFirst_ownerLabel (name : string) (others : list string) :
  indexOf "[" name = None →
  beforeFirst "[" <$> ownerLabel (name :: others) = Some name.
Proof.
  intros Hname. cbn [ownerLabel]. case_bool_decide; cbn [fmap option_fmap option_map].
  - by rewrite beforeFirst_none.
  - f_equal. by apply beforeFirst_app.
Qed.

(** X12: from the page to the graph.  For an element record serialized by
    the backend and stored in the merged tree, the graph shows the name of
    the component, when the owner is no comment node and has one, and
    otherwise the name of the first directive, cut to 30 code units,
    whatever the number of other directives, provided that name holds no
    square bracket; and computing the text raises when the element hosts
    no directive and is a comment node or has no component. *)
Theorem element_text (inj : RawInjector) (st : State) (nd : NodeRef)
    (below : list MergedNode) (Htype : raw_type inj = "Element") :
  let n := MkMergedNode
    (tagWithNode nd (serializeInjector getDirectives getComponent isComment
                       constructorName ownerName randomUUID inj st).2) below in
  (getDirectives (raw_owner inj) = [] →
   isComment (raw_owner inj) = true ∨ getComponent (raw_owner inj) = None →
   nodeText n = None) ∧
  (∀ c, isComment (raw_owner inj) = false → getComponent (raw_owner inj) = Some c →
     indexOf "[" (constructorName c) = None →
     nodeText n = Some (truncateLabel (constructorName c))) ∧
  (∀ d ds, isComment (raw_owner inj) = true ∨ getComponent (raw_owner inj) = None →
     getDirectives (raw_owner inj) = d :: ds →
     indexOf "[" (constructorName d) = None →
     nodeText n = Some (truncateLabel (constructorName d))).
Proof.
  cbn zeta. rewrite element_text_of_owner by done. split; [|split].
  - intros Hdirs Hplain. by rewrite ownerDirectives_plain, Hdirs.
  - intros c Hcomment Hcomp Hname.
    rewrite (ownerDirectives_component _ _ _ _ c), fmap_cons by done.
    pose proof (beforeFirst_ownerLabel _
      (constructorName <$> getDirectives (raw_owner inj)) Hname) as Hlabel.
    destruct (ownerLabel _) as [label|]; [|done]. cbn in *. by injection Hlabel as ->.
  - intros d ds Hplain Hdirs Hname.
    rewrite ownerDirectives_plain, Hdirs, fmap_cons by done.
    pose proof (beforeFirst_ownerLabel _ (constructorName <$> ds) Hname) as Hlabel.
    destruct (ownerLabel _) as [label|]; [|done]. cbn in *. by injection Hlabel as ->.
Qed.
End ElementText.

Lemma element_text_witness :
  nodeText (MkMergedNode
    (tagWithNode (MkNodeRef [])
       (serializeInjector ex_getDirectives ex_getComponent ex_isComment
          ex_constructorName ex_ownerName ex_randomUUID ex_element ex_state).2) [])
  = Some (utf16 "TodoComponent") ∧
  nodeText (MkMergedNode
    (tagWithNode (MkNodeRef [])
       (serializeInjector ex_getDirectives ex_getComponent ex_isComment
          ex_constructorName ex_ownerName ex_randomUUID ex_comment ex_state).2) [])
  = None.
Proof.
  split.
  - apply (proj1 (proj2 (element_text ex_getDirectives ex_getComponent ex_isComment
             ex_constructorName ex_ownerName ex_randomUUID ex_element ex_state
             (MkNodeRef []) [] eq_refl)) 1%positive); reflexivity.
  - apply (proj1 (element_text ex_getDirectives ex_getComponent ex_isComment
             ex_constructorName ex_ownerName ex_randomUUID ex_comment ex_state
             (MkNodeRef []) [] eq_refl)); [reflexivity|by left].
Defined.

Lemma sameShape_refl t : sameShape t t.
Proof.
  induction t as [inj ch IH] using MergedNode_tree_ind.
  apply (sameShape_node inj inj ch ch ch); [done|done|].
  induction IH; by constructor.
Qed.

Lemma Forall2_sameShape_refl f : Forall2 sameShape f f.
Proof. induction f; constructor; [apply sameShape_refl|done]. Qed.

(** X13: the renaming step of [_render] raises exactly when the tree has
    a first root without children.  When it returns, the tree has the same
    nodes with the same ids in the same places, the first child of the
    first root is not labelled ['R3Injector'], and doing the step again
    changes nothing. *)
Theorem renderRename_spec (injectorTree : list MergedNode) :
  (renderRename injectorTree = None ↔
     ∃ root others, injectorTree = root :: others ∧ children root = []) ∧
  (∀ tree', renderRename injectorTree = Some tree' →
     Forall2 sameShape injectorTree tree' ∧
     forestSize tree' = forestSize injectorTree ∧
     renderRename tree' = Some tree' ∧
     ∀ root others first siblings,
       tree' = root :: others → children root = first :: siblings →
       owner (injector first) ≠ Some "R3Injector").
Proof.
  unfold renderRename. split.
  - destruct injectorTree as [|[inj [|first siblings]] others]; cbn.
    + split; [done|]. by intros (? & ? & ? & _).
    + split; [|done]. intros _. by eexists _, _.
    + case_bool_decide; (split; [done|]); intros (? & ? & [= <- <-] & ?); done.
  - intros tree'.
    destruct injectorTree as [|[inj [|[finj fch] siblings]] others]; cbn; [| |].
    + intros [= <-]. split; [constructor|]. split; [done|]. split; [done|]. done.
    + done.
    + case_bool_decide as Hown; intros [= <-].
      * split; [|split; [|split]].
        -- constructor; [|apply Forall2_sameShape_refl].
           eapply sameShape_node; [done|done|].
           constructor; [|apply Forall2_sameShape_refl].
           eapply sameShape_node; [done|done|apply Forall2_sameShape_refl].
        -- by rewrite !forestSize_cons, !treeSize_node, !forestSize_cons, !treeSize_node.
        -- cbn. done.
        -- intros root others' first siblings' [= <- <-]. cbn. by intros [= <- _].
      * split; [apply Forall2_sameShape_refl|]. split; [done|]. split.
        -- cbn. by rewrite bool_decide_eq_false_2.
        -- intros root others' first siblings' [= <- <-]. cbn. by intros [= <- _].
Qed.


(** ** Injector parameters *)

Lemma serializeInjectorParameter_index p index s :
  serializeInjectorParameter p index = Some s → sp_paramIndex s = index.
Proof.
  unfold serializeInjectorParameter. case_bool_decide; [by intros [= <-]|].
  destruct (ip_value p) as [[name|]|]; cbn; [|done|done]. by intros [= <-].
Qed.

Lemma serializeInjectorParameter_raises p index :
  serializeInjectorParameter p index = None ↔
  ip_ngMetadataName p ≠ Some "InjectionToken" ∧ mjoin (ip_value p) = None.
Proof.
  unfold serializeInjectorParameter. case_bool_decide as Htok.
  - split; [done|]. by intros [? _].
  - destruct (ip_value p) as [[name|]|]; cbn; split; try done; by intros [_ ?].
Qed.

Lemma mapIndexed_Some {A B : Type} (f : A → nat → option B) xs : ∀ index ys,
  mapIndexed f xs index = Some ys →
  length ys = length xs ∧
  ∀ i y, ys !! i = Some y → ∃ x, xs !! i = Some x ∧ f x (index + i) = Some y.
Proof.
  induction xs as [|x xs IH]; intros index ys; cbn.
  - intros [= <-]. split; [done|]. by intros i y ?.
  - destruct (f x index) as [y0|] eqn:Hf; [|done]. cbn.
    destruct (mapIndexed f xs (S index)) as [ys0|] eqn:Hmap; [|done]. cbn.
    intros [= <-]. destruct (IH _ _ Hmap) as [Hlen Hat]. split; [cbn; by rewrite Hlen|].
    intros [|i] y; cbn.
    + intros [= <-]. exists x. split; [done|]. by rewrite Nat.add_0_r.
    + intros Hy. destruct (Hat i y Hy) as (x' & Hx' & Hfx').
      exists x'. split; [done|]. by rewrite <-Nat.add_succ_comm.
Qed.

Lemma mapIndexed_None {A B : Type} (f : A → nat → option B) xs : ∀ index,
  mapIndexed f xs index = None ↔
  ∃ i x, xs !! i = Some x ∧ f x (index + i) = None.
Proof.
  induction xs as [|x xs IH]; intros index; cbn.
  - split; [done|]. by intros (i & x & ? & _).
  - destruct (f x index) as [y0|] eqn:Hf; cbn.
    + destruct (mapIndexed f xs (S index)) as [ys0|] eqn:Hmap; cbn.
      * split; [done|]. intros ([|i] & x' & Hx' & Hfx'); cbn in Hx'.
        -- injection Hx' as <-. rewrite Nat.add_0_r in Hfx'. congruence.
        -- assert (mapIndexed f xs (S index) = None); [|congruence].
           apply IH. exists i, x'. split; [done|]. by rewrite Nat.add_succ_comm.
      * split; [|done]. intros _. apply IH in Hmap as (i & x' & Hx' & Hfx').
        exists (S i), x'. split; [done|]. by rewrite <-Nat.add_succ_comm.
    + split; [|done]. intros _. exists 0, x. split; [done|]. by rewrite Nat.add_0_r.
Qed.

(** X14: serializing the injector parameters of an element gives no
    parameter when the page has no metadata, and otherwise one serialized
    parameter for each parameter, in order, whose [paramIndex] is its
    place: looking the metadata up at the [paramIndex] of a serialized
    parameter, as the callers do, finds the parameter it was made from.
    It raises exactly when some parameter whose token is no
    [InjectionToken] has no value, or a value without constructor. *)
Theorem getInjectorMetadataFromElement_spec
    (injectorMetadata : option (list InjectorParameter)) :
  (injectorMetadata = None → getInjectorMetadataFromElement injectorMetadata = Some []) ∧
  (getInjectorMetadataFromElement injectorMetadata = None ↔
     ∃ parameters p, injectorMetadata = Some parameters ∧ p ∈ parameters ∧
       ip_ngMetadataName p ≠ Some "InjectionToken" ∧ mjoin (ip_value p) = None) ∧
  (∀ serialized,
     getInjectorMetadataFromElement injectorMetadata = Some serialized →
     length serialized = length (default [] injectorMetadata) ∧
     ∀ i s, serialized !! i = Some s →
       sp_paramIndex s = i ∧
       ∃ p, default [] injectorMetadata !! sp_paramIndex s = Some p ∧
            serializeInjectorParameter p i = Some s).
Proof.
  split; [by intros ->|]. split.
  - destruct injectorMetadata as [parameters|]; cbn.
    + rewrite mapIndexed_None. split.
      * intros (i & p & Hp & Hnone). apply serializeInjectorParameter_raises in Hnone.
        exists parameters, p. split; [done|].
        split; [by eapply list_elem_of_lookup_2|done].
      * intros (? & p & [= <-] & Hin & Hraise).
        apply list_elem_of_lookup in Hin as [i Hi]. exists i, p. split; [done|].
        by apply serializeInjectorParameter_raises.
    + split; [done|]. by intros (? & ? & ? & _).
  - intros serialized. destruct injectorMetadata as [parameters|]; cbn.
    + intros Hmap. destruct (mapIndexed_Some _ _ _ _ Hmap) as [Hlen Hat].
      split; [done|]. intros i s Hs. destruct (Hat i s Hs) as (p & Hp & Hser).
      cbn in Hser. pose proof (serializeInjectorParameter_index _ _ _ Hser) as Hidx.
      split; [done|]. exists p. by rewrite Hidx.
    + intros [= <-]. split; [done|]. by intros i s ?.
Qed.

(** ** [stringify] *)

(** X15: a token that has no name is printed through [toString], and of
    what [toString] returned only the first line is kept: the text holds
    no line break, and it is what was returned, or what was returned up to
    its first line break. *)
Theorem stringify_first_line (res : string) :
  let text := stringify (TokOther None None (Some (ResString res))) in
  indexOf newline text = None ∧
  (text = res ∨ ∃ rest, res = text +:+ newline +:+ rest).
Proof.
  cbn. unfold newline. destruct (indexOf _ res) as [i|] eqn:Hi.
  - destruct (indexOf_char_found _ _ _ Hi) as [Hnone [rest Hrest]].
    split; [done|]. right. by exists rest.
  - split; [done|by left].
Qed.

Lemma getInjectorMetadataFromElement_example :
  sp_token <$> default [] (getInjectorMetadataFromElement (Some ex_parameters))
  = [Some "Router"; Some "InjectionToken(foo)"].
Proof. reflexivity. Qed.

(** ** [serializeResolutionPath] *)

Lemma TraceInjector_tree_ind (P : TraceInjector → Prop) :
  (∀ type ownerName ownerNgModule importPath,
     Forall P (default [] importPath) →
     P (MkTraceInjector type ownerName ownerNgModule importPath)) →
  ∀ t, P t.
Proof.
  intros H. fix IH 1. intros [type ownerName ownerNgModule importPath].
  apply H. destruct importPath as [path|]; [|constructor]. cbn.
  induction path as [|c path IHpath]; constructor; [apply IH|exact IHpath].
Qed.

Lemma mapM_trace_None (f : TraceInjector → option SerializedTrace)
    (Bad : TraceInjector → Prop) xs :
  Forall (λ x, f x = None ↔ Bad x) xs →
  mapM f xs = None ↔ Exists Bad xs.
Proof.
  induction 1 as [|x xs Hx _ IH]; cbn.
  - split; [done|]. by intros ?%Exists_nil.
  - rewrite Exists_cons. destruct (f x) as [y|] eqn:Hf; cbn.
    + destruct (mapM f xs) as [ys|]; cbn.
      * split; [done|]. intros [Hb|Hb]; [apply Hx in Hb|apply IH in Hb]; done.
      * split; [|done]. intros _. right. by apply IH.
    + split; [|done]. intros _. left. by apply Hx.
Qed.

Lemma serializeTraceInjector_unfold type ownerName ownerNgModule importPath :
  serializeTraceInjector (MkTraceInjector type ownerName ownerNgModule importPath)
  = owner ← match ownerName with
            | Some name => Some (Some name)
            | None => ownerNgModule
            end;
    if bool_decide (type = "Module")
       || bool_decide (type = "ImportedModule") && bool_decide (is_Some importPath)
    then
      match importPath with
      | Some path =>
          path' ← mapM serializeTraceInjector path;
          Some (MkSerializedTrace type owner (ImportPathSerialized path'))
      | None => Some (MkSerializedTrace type owner ImportPathMissing)
      end
    else
      Some (MkSerializedTrace type owner
              match importPath with
              | Some path => ImportPathRaw path
              | None => ImportPathMissing
              end).
Proof.
  cbn [serializeTraceInjector].
  destruct (match ownerName with Some name => Some (Some name) | None => ownerNgModule end);
    [|done]. cbn [mbind option_bind].
  destruct (_ || _); [|done]. by destruct importPath as [path|].
Qed.

Lemma serializeTraceInjector_raises injector :
  serializeTraceInjector injector = None ↔ Exists NoOwnerName (reachedFrom injector).
Proof.
  induction injector as [type ownerName ownerNgModule importPath IH]
    using TraceInjector_tree_ind.
  rewrite serializeTraceInjector_unfold. cbn [reachedFrom]. rewrite Exists_cons.
  replace (match importPath with Some path => flat_map reachedFrom path | None => [] end)
    with (flat_map reachedFrom (default [] importPath)) by (by destruct importPath).
  unfold NoOwnerName at 1. cbn [tr_ownerName tr_ownerNgModule].
  assert (Hpath : mapM serializeTraceInjector (default [] importPath) = None ↔
                  Exists NoOwnerName (flat_map reachedFrom (default [] importPath))).
  { rewrite (mapM_trace_None _ (λ i, Exists NoOwnerName (reachedFrom i)) _ IH).
    clear. induction (default [] importPath) as [|c path IHc]; cbn.
    - split; by intros ?%Exists_nil.
    - rewrite Exists_cons, Exists_app, IHc. tauto. }
  destruct ownerName as [name|]; [|destruct ownerNgModule as [ng|]]; cbn [mbind option_bind].
  3: { split; [by left|done]. }
  all: destruct importPath as [path|]; cbn in Hpath |- *;
    repeat case_bool_decide; cbn;
    try (destruct (mapM serializeTraceInjector path); cbn);
    split; try done;
    try (intros [[? ?]|Hb]; [done|]);
    try (by apply Exists_nil in Hb);
    try (by apply Hpath in Hb);
    try (intros _; right; by apply Hpath).
Qed.

Lemma serializeTraceInjector_type injector s :
  serializeTraceInjector injector = Some s → st_type s = tr_type injector.
Proof.
  destruct injector as [type ownerName ownerNgModule importPath].
  rewrite serializeTraceInjector_unfold.
  destruct (match ownerName with Some name => Some (Some name) | None => ownerNgModule end);
    [|done]. cbn [mbind option_bind].
  destruct (_ || _); [|by intros [= <-]].
  destruct importPath as [path|]; [|by intros [= <-]].
  destruct (mapM serializeTraceInjector path); [|done]. by intros [= <-].
Qed.

(** X16: serializing a traced path does nothing on a missing path, and
    otherwise keeps the number and the types of the records.  It raises
    exactly when the owner of a record it reaches has neither a name nor
    an [ngModule]; it reaches the records of the path and, through the
    import paths of ['Module'] and ['ImportedModule'] records only, those
    of the import paths, at any depth. *)
Theorem serializeResolutionPath_spec (injectors : option (list TraceInjector)) :
  (injectors = None → serializeResolutionPath injectors = Some []) ∧
  (serializeResolutionPath injectors = None ↔
     ∃ r, r ∈ flat_map reachedFrom (default [] injectors) ∧
          tr_ownerName r = None ∧ tr_ownerNgModule r = None) ∧
  (∀ serialized,
     serializeResolutionPath injectors = Some serialized →
     st_type <$> serialized = tr_type <$> default [] injectors).
Proof.
  unfold serializeResolutionPath. split; [by intros ->|]. split.
  - rewrite (mapM_trace_None _ (λ i, Exists NoOwnerName (reachedFrom i)));
      [|apply Forall_forall; intros i _; apply serializeTraceInjector_raises].
    rewrite <-(Exists_exists NoOwnerName).
    induction (default [] injectors) as [|c path IHc]; cbn.
    + split; by intros ?%Exists_nil.
    + rewrite Exists_cons, Exists_app, IHc. tauto.
  - intros serialized Hmap. apply mapM_Some_1 in Hmap.
    induction Hmap as [|i s path ss His _ IH]; [done|].
    rewrite !fmap_cons, IH. f_equal. by apply serializeTraceInjector_type.
Qed.


(** ** The roots of the page *)

Lemma isTopLevel_ancestors element :
  isTopLevel element = true ↔ ∀ a, a ∈ ancestors element → hasNgVersion a = false.
Proof.
  revert element. fix IH 1. intros [ng [parent|]]; cbn.
  - specialize (IH parent). destruct (hasNgVersion parent) eqn:Hng.
    + split; [discriminate|]. intros H.
      rewrite <- Hng. symmetry. apply H. left.
    + rewrite IH. split.
      * intros H a [->|Ha]%elem_of_cons; auto.
      * intros H a Ha. apply H. now right.
  - split; [|reflexivity]. intros _ a Ha. inversion Ha.
Qed.

(** X17: when every candidate carries [ng-version], as the elements that
    the selector returns do, [getRoots] keeps, in their order, exactly the
    candidates none of whose proper ancestors carries [ng-version]; no
    root that it returns lies inside another candidate, and filtering the
    roots again keeps them all. *)
Theorem getRoots_top_level (candidates : list DomElement)
    (Hng : Forall (λ e, hasNgVersion e = true) candidates) :
  (∀ r, r ∈ getRoots candidates ↔
        r ∈ candidates ∧ ∀ a, a ∈ ancestors r → hasNgVersion a = false) ∧
  getRoots candidates `sublist_of` candidates ∧
  (∀ r c, r ∈ getRoots candidates → c ∈ candidates → c ∉ ancestors r) ∧
  getRoots (getRoots candidates) = getRoots candidates.
Proof.
  assert (Hspec : ∀ r, r ∈ getRoots candidates ↔
        r ∈ candidates ∧ ∀ a, a ∈ ancestors r → hasNgVersion a = false).
  { intros r. unfold getRoots. rewrite list_elem_of_filter, isTopLevel_ancestors.
    tauto. }
  split; [exact Hspec|]. split; [apply sublist_filter|]. split.
  - intros r c [_ Hr]%Hspec Hc Hin.
    rewrite Forall_forall in Hng. specialize (Hng c Hc).
    rewrite (Hr c Hin) in Hng. discriminate.
  - unfold getRoots. apply list_filter_filter_l. auto.
Qed.

Lemma getRoots_top_level_witness :
  getRoots [ex_app; ex_nested] = [ex_app] ∧
  ex_nested ∉ ancestors ex_app.
Proof.
  split; [reflexivity|].
  apply (proj1 (proj2 (proj2 (getRoots_top_level [ex_app; ex_nested]
           ltac:(repeat constructor)))) ex_app ex_nested).
  - left.
  - right. left.
Defined.

(** ** [traverseDirective] *)

Section TraverseProperties.
Context {Value : Type} (undefined : Value) (truthy : Value → bool).
Context (readProperty : Value → string → option Value).

Local Abbreviation traverse := (traverseDirective undefined truthy readProperty).

Lemma traverseDirective_returns dir objectPath :
  truthy dir = true →
  (∀ v key, truthy v = true → is_Some (readProperty v key)) →
  ∃ v, traverse dir objectPath = Some v ∧ (v = undefined ∨ truthy v = true).
Proof.
  intros Hdir Hread. revert dir Hdir.
  induction objectPath as [|key rest IH]; intros dir Hdir; cbn.
  - eauto.
  - destruct (Hread dir key Hdir) as [value Hvalue]. rewrite Hvalue. cbn.
    destruct (truthy value) eqn:Htruthy; cbn; eauto.
Qed.

(** X18: when reading a property of a truthy value never raises and
    [undefined] is falsy, [traverseDirective] from a truthy start never
    raises, and returns [undefined] or a truthy value; a path in two
    parts is walked by walking the first part and then, from a truthy
    result, the second, and a result [undefined] of the first part is the
    result of the whole. *)
Theorem traverseDirective_app (dir : Value) (p q : list string)
    (Hundefined : truthy undefined = false)
    (Hdir : truthy dir = true)
    (Hread : ∀ v key, truthy v = true → is_Some (readProperty v key)) :
  (∃ v, traverseDirective undefined truthy readProperty dir (p ++ q) = Some v ∧
        (v = undefined ∨ truthy v = true)) ∧
  traverseDirective undefined truthy readProperty dir (p ++ q) =
    (v ← traverseDirective undefined truthy readProperty dir p;
     if truthy v then traverseDirective undefined truthy readProperty v q
     else Some undefined).
Proof.
  split; [now apply traverseDirective_returns|].
  revert dir Hdir. induction p as [|key rest IH]; intros dir Hdir; cbn.
  - now rewrite Hdir.
  - destruct (Hread dir key Hdir) as [value Hvalue]. rewrite Hvalue. cbn.
    destruct (truthy value) eqn:Htruthy; cbn.
    + now apply IH.
    + now rewrite Hundefined.
Qed.

End TraverseProperties.

Lemma ex_readProperty_truthy v key :
  ex_truthy v = true → is_Some (ex_readProperty v key).
Proof. destruct v; [discriminate|]. cbn. eauto. Qed.

Lemma traverseDirective_app_witness :
  traverseDirective ExUndefined ex_truthy ex_readProperty ex_directive
      (["todo"] ++ ["label"]) = Some (ExObject []) ∧
  traverseDirective ExUndefined ex_truthy ex_readProperty ex_directive
      (["done"] ++ ["label"]) = Some ExUndefined.
Proof.
  split.
  - rewrite (proj2 (traverseDirective_app ExUndefined ex_truthy ex_readProperty
               ex_directive ["todo"] ["label"] eq_refl eq_refl
               ex_readProperty_truthy)).
    reflexivity.
  - rewrite (proj2 (traverseDirective_app ExUndefined ex_truthy ex_readProperty
               ex_directive ["done"] ["label"] eq_refl eq_refl
               ex_readProperty_truthy)).
    reflexivity.
Defined.

(** ** The tabs component *)

Lemma tabsStep_tabs st action :
  tabs (tabsStep st action) =
    if bringsRoutes action then _defaultTabs ++ [RouterTree] else tabs st.
Proof.
  destruct action as [[[|route routes']|]|forest|[]| | | |[]|checked|]; cbn;
    try reflexivity.
  - unfold onLatestInjectorGraphView. now destruct (injectorTreeReloaded _ _).
  - unfold toggleInspector, emitInspectorEvent. cbn.
    now destruct (inspectorRunning st).
  - unfold emitInspectorEvent. now destruct (inspectorRunning st).
Qed.

Lemma tabsRun_tabs actions st :
  tabs (tabsRun actions st) =
    if existsb bringsRoutes actions then _defaultTabs ++ [RouterTree] else tabs st.
Proof.
  unfold tabsRun. revert st. induction actions as [|action actions IH]; intros st; cbn.
  - reflexivity.
  - rewrite IH, tabsStep_tabs. destruct (bringsRoutes action); cbn; [|reflexivity].
    now destruct (existsb bringsRoutes actions).
Qed.

(** X19: the Router Tree tab is sticky: after any sequence of messages
    and calls from the initial state, the tabs are the three default tabs,
    followed by the Router Tree tab exactly when some router tree update
    brought at least one route; a later update without routes, missing or
    empty, empties [routes] and leaves the tabs as they are. *)
Theorem router_tab_sticky (actions : list TabsAction) (st : TabsState) :
  tabs (tabsRun actions initialTabsState) =
    _defaultTabs ++ (if existsb bringsRoutes actions then [RouterTree] else []) ∧
  routes (tabsStep st (UpdateRouterTree None)) = [] ∧
  tabs (tabsStep st (UpdateRouterTree None)) = tabs st ∧
  routes (tabsStep st (UpdateRouterTree (Some []))) = [] ∧
  tabs (tabsStep st (UpdateRouterTree (Some []))) = tabs st.
Proof.
  split; [|now cbn].
  rewrite tabsRun_tabs. now destruct (existsb bringsRoutes actions).
Qed.

Lemma filter_inspector_snoc_other (event : string) (log : list string) :
  ¬ isInspectorEvent event →
  filter isInspectorEvent (log ++ [event]) = filter isInspectorEvent log.
Proof.
  intros Hno. rewrite filter_app. cbn. rewrite decide_False by exact Hno.
  apply app_nil_r.
Qed.

Lemma filter_inspector_snoc (event : string) (log : list string) :
  isInspectorEvent event →
  filter isInspectorEvent (log ++ [event]) = filter isInspectorEvent log ++ [event].
Proof.
  intros Hyes. rewrite filter_app. cbn. now rewrite decide_True by exact Hyes.
Qed.

Lemma toggles_cons action actions :
  toggles (action :: actions) = (if isToggle action then 1 else 0) + toggles actions.
Proof. unfold toggles. now destruct action. Qed.

Lemma tabsStep_inspector st action k :
  isInspectorStep action = false →
  filter isInspectorEvent (emitted st) = startEndLog k →
  inspectorRunning st = Nat.odd k →
  filter isInspectorEvent (emitted (tabsStep st action)) =
    startEndLog (if isToggle action then S k else k) ∧
  inspectorRunning (tabsStep st action) =
    Nat.odd (if isToggle action then S k else k).
Proof.
  intros Hstep Hlog Hrun.
  assert (Hother : ∀ event, ¬ isInspectorEvent event →
            filter isInspectorEvent (emitted st ++ [event]) = startEndLog k).
  { intros event Hno. now rewrite filter_inspector_snoc_other. }
  destruct action as [routes'|forest|[]| | | |[]|checked|]; try discriminate Hstep;
    cbn [isToggle];
    try (cbn; split; [first [exact Hlog | apply Hother; intros [?|?]; discriminate]
                     |exact Hrun]).
  - cbn. unfold onLatestInjectorGraphView. now destruct (injectorTreeReloaded _ _).
  - clear Hother. destruct st as [tab running rs ts tree collapse log n].
    unfold tabsStep, toggleInspector, emitInspectorEvent. cbn in *.
    rewrite Nat.odd_succ, <- Nat.negb_odd, <- Hrun.
    destruct running; cbn.
    + split; [|reflexivity].
      rewrite filter_inspector_snoc_other by (intros [?|?]; discriminate).
      rewrite filter_inspector_snoc by (now right). now rewrite Hlog.
    + split; [|reflexivity].
      rewrite filter_inspector_snoc by (now left). now rewrite Hlog.
Qed.

Lemma tabsRun_inspector actions st k :
  Forall (λ action, isInspectorStep action = false) actions →
  filter isInspectorEvent (emitted st) = startEndLog k →
  inspectorRunning st = Nat.odd k →
  filter isInspectorEvent (emitted (tabsRun actions st)) =
    startEndLog (toggles actions + k) ∧
  inspectorRunning (tabsRun actions st) = Nat.odd (toggles actions + k).
Proof.
  unfold tabsRun. intros Hvia. revert st k.
  induction Hvia as [|action actions Hstep _ IH]; intros st k Hlog Hrun.
  - now cbn.
  - destruct (tabsStep_inspector st action k Hstep Hlog Hrun) as [Hlog' Hrun'].
    destruct (IH _ _ Hlog' Hrun') as [Hlog'' Hrun''].
    change (foldl tabsStep st (action :: actions))
      with (foldl tabsStep (tabsStep st action) actions).
    replace (toggles (action :: actions) + k)
      with (toggles actions + (if isToggle action then S k else k)); [now split|].
    rewrite toggles_cons. destruct (isToggle action); lia.
Qed.

(** X20: when the inspector is driven through [toggleInspector], that
    is when [emitInspectorEvent] and [toggleInspectorState] are not called
    on their own, then whatever the other messages and calls from the
    initial state, the events [inspectorStart] and [inspectorEnd] reach
    the message bus in strict alternation, [inspectorStart] first, one for
    each call of [toggleInspector], and the inspector is running exactly
    when their number is odd.  A call of [toggleInspector] that starts the
    inspector makes Components the active tab, one that ends it leaves the
    active tab.  Called on its own in the initial state,
    [emitInspectorEvent] emits [inspectorEnd] first. *)
Theorem inspector_events_alternate (actions : list TabsAction) (st : TabsState)
    (Hvia : Forall (λ action, isInspectorStep action = false) actions) :
  filter isInspectorEvent (emitted (tabsRun actions initialTabsState)) =
    startEndLog (toggles actions) ∧
  inspectorRunning (tabsRun actions initialTabsState) = Nat.odd (toggles actions) ∧
  activeTab (toggleInspector st) =
    (if inspectorRunning st then activeTab st else Components) ∧
  emitted (tabsRun [EmitInspectorEvent] initialTabsState)
  = ["inspectorEnd"; "removeHighlightOverlay"].
Proof.
  destruct (tabsRun_inspector actions initialTabsState 0 Hvia eq_refl eq_refl)
    as [Hlog Hrun].
  rewrite Nat.add_0_r in Hlog, Hrun. repeat split; [exact Hlog|exact Hrun|].
  unfold toggleInspector, emitInspectorEvent. cbn.
  now destruct (inspectorRunning st).
Qed.

Lemma inspector_events_alternate_witness :
  filter isInspectorEvent
    (emitted (tabsRun [ToggleInspector; ChangeTab Profiler; ToggleTimingAPI true;
                       ToggleInspector; ToggleInspector] initialTabsState))
  = ["inspectorStart"; "inspectorEnd"; "inspectorStart"].
Proof.
  apply (proj1 (inspector_events_alternate
                  [ToggleInspector; ChangeTab Profiler; ToggleTimingAPI true;
                   ToggleInspector; ToggleInspector] initialTabsState
                  ltac:(repeat constructor))).
Defined.
